(** * The grant checker of the userscript template (scripts/check-grants.js)

    A shallow embedding of the checker: the text of a source file is a
    [string] (the UTF-8 bytes of the file; the pattern of the checker only
    ever looks at ASCII characters, and every byte of a non-ASCII character
    is a non-word character, as every non-ASCII UTF-16 code unit is for the
    regular expression), a JavaScript [Set] of strings is a duplicate-free
    list in insertion order, the source tree is a tree of directory entries,
    and the console is the list of calls made to it. *)

From Stdlib Require Import Ascii.
From stdpp Require Import base list strings gmap.

Set Warnings "-register-all".

(** ** The regular expression [/\bGM_\w+/g] *)

(** [\w] without the unicode or ignore-case flags: [A-Za-z0-9_]. *)
Definition isWordChar (c : ascii) : bool :=
  let n := Ascii.N_of_ascii c in
  ((48 <=? n)%N && (n <=? 57)%N) || ((65 <=? n)%N && (n <=? 90)%N)
  || (n =? 95)%N || ((97 <=? n)%N && (n <=? 122)%N).

(** The character before or after a position, when there is one: outside
    the text there is no word character. *)
Definition isWordAt (c : option ascii) : bool :=
  match c with
  | Some c => isWordChar c
  | None => false
  end.

Definition first_char (s : string) : option ascii :=
  match s with
  | String c _ => Some c
  | EmptyString => None
  end.

(** The last character of [s], or [prev] when [s] is empty: the character
    before the position that follows [s]. *)
Fixpoint last_char (prev : option ascii) (s : string) : option ascii :=
  match s with
  | String c s' => last_char (Some c) s'
  | EmptyString => prev
  end.

(** [\b]: exactly one of the two neighbours of the position is a word
    character. *)
Definition wordBoundary (prev : option ascii) (s : string) : bool :=
  xorb (isWordAt prev) (isWordAt (first_char s)).

(** [\w+] is greedy and nothing follows it in the pattern: it takes the
    longest run of word characters. *)
Fixpoint wordRun (s : string) : string :=
  match s with
  | String c s' => if isWordChar c then String c (wordRun s') else EmptyString
  | EmptyString => EmptyString
  end.

(** The literal characters of a pattern: what is left of [s] after them. *)
Fixpoint literal (chars s : string) : option string :=
  match chars with
  | EmptyString => Some s
  | String a chars' =>
      match s with
      | String b s' => if decide (a = b) then literal chars' s' else None
      | EmptyString => None
      end
  end.

(** One attempt of the pattern at a position, [prev] being the character
    before it and [s] the text from it. *)
Definition matchAt (prev : option ascii) (s : string) : option string :=
  if wordBoundary prev s then
    match literal "GM_" s with
    | Some rest =>
        match wordRun rest with
        | EmptyString => None
        | w => Some ("GM_" +:+ w)
        end
    | None => None
    end
  else None.

(** The global search: the pattern is tried at every position from
    [lastIndex] on; after a match the search resumes at the end of the
    match. [skip] counts the characters between the current position and
    [lastIndex]. *)
Fixpoint matchAll_from (prev : option ascii) (skip : nat) (s : string)
    : list string :=
  match s with
  | EmptyString => []
  | String c s' =>
      match skip with
      | S k => matchAll_from (Some c) k s'
      | O =>
          match matchAt prev s with
          | Some m => m :: matchAll_from (Some c) (String.length m - 1) s'
          | None => matchAll_from (Some c) 0 s'
          end
      end
  end.

Definition matchAll (content : string) : list string :=
  matchAll_from None 0 content.

(** ** JavaScript sets of strings *)

Definition Set_has (s : list string) (x : string) : bool :=
  bool_decide (x ∈ s).

Definition Set_add (s : list string) (x : string) : list string :=
  if Set_has s x then s else s ++ [x].

Definition new_Set (l : list string) : list string :=
  foldl Set_add [] l.

(** ** The scan of the source tree *)

Inductive node :=
| File (content : string)
| Dir (files : list (string * node)).

(** [for (const match of matches) gmApiCalls.add(match[0])] *)
Definition scanFile (content : string) (gmApiCalls : list string)
    : list string :=
  foldl Set_add gmApiCalls (matchAll content).

(** [file.endsWith(suffix)] *)
Definition endsWith (file suffix : string) : bool :=
  bool_decide (String.length suffix ≤ String.length file)
  && String.eqb
       (String.substring (String.length file - String.length suffix)
          (String.length suffix) file)
       suffix.

Definition isSourceFile (file : string) : bool :=
  endsWith file ".ts" || endsWith file ".js".

Fixpoint scanDirectory (dir : node) (gmApiCalls : list string)
    : list string :=
  match dir with
  | Dir files =>
      foldl (λ calls '(file, child),
               match child with
               | Dir _ => scanDirectory child calls
               | File content =>
                   if isSourceFile file then scanFile content calls
                   else calls
               end) gmApiCalls files
  | File _ => gmApiCalls (* not reached: see [scanSources] *)
  end.

(** ** The manifest, the file system and the process *)

(** The manifest as the checker uses it: an object whose [grant] field,
    when present, is an array of strings. *)
Record Meta := { grant : option (list string) }.

(** What [JSON.parse(fs.readFileSync(metaPath, 'utf8'))] finds: no file, a
    text that [JSON.parse] rejects, or a text that it parses. *)
Inductive manifest_file :=
| NoSuchFile
| Unparseable (text : string)
| Parsed (meta : Meta).

Record world := {
  rootDir : string;
  meta_json : manifest_file;
  src : option node
}.

(** The exceptions of the run. An error of [fs] carries the system call
    and the path; [JSON.parse] is given the text alone and its
    [SyntaxError] is determined by that text. *)
Inductive exn :=
| ENOENT (syscall path : string)
| ENOTDIR (syscall path : string)
| SyntaxError (text : string).

Definition exn_path (e : exn) : option string :=
  match e with
  | ENOENT _ path | ENOTDIR _ path => Some path
  | SyntaxError _ => None
  end.

Inductive result (A : Type) :=
| Ok (a : A)
| Throw (e : exn).
Arguments Ok {A} a.
Arguments Throw {A} e.

Inductive stream := console_error | console_warn | console_log.

Global Instance stream_eq_dec : EqDecision stream.
Proof. solve_decision. Defined.

(** A computation of the script: it may call the console and it may
    throw; the calls made before a throw stay made. *)
Definition js (A : Type) : Type :=
  list (stream * string) → result A * list (stream * string).

Definition js_ret {A} (a : A) : js A := λ out, (Ok a, out).

Definition js_bind {A B} (m : js A) (k : A → js B) : js B :=
  λ out, match m out with
         | (Ok a, out') => k a out'
         | (Throw e, out') => (Throw e, out')
         end.

Notation "x <- m ;; k" := (js_bind m (λ x, k))
  (at level 100, m at next level, right associativity).
Notation "m ;;; k" := (js_bind m (λ _, k))
  (at level 100, right associativity).

Definition throw {A} (e : exn) : js A := λ out, (Throw e, out).

Definition console (s : stream) (text : string) : js unit :=
  λ out, (Ok tt, out ++ [(s, text)]).

Fixpoint forEach (l : list string) (f : string → js unit) : js unit :=
  match l with
  | [] => js_ret tt
  | x :: l' => f x ;;; forEach l' f
  end.

Definition path_join (dir file : string) : string := dir +:+ "/" +:+ file.

Definition readManifest (w : world) (metaPath : string) : js Meta :=
  match meta_json w with
  | NoSuchFile => throw (ENOENT "open" metaPath)
  | Unparseable text => throw (SyntaxError text)
  | Parsed meta => js_ret meta
  end.

(** [scanDirectory(srcDir)]: [fs.readdirSync] throws on a root that does
    not exist or is not a directory; below the root a directory is only
    entered after [isDirectory()]. *)
Definition scanSources (w : world) (srcDir : string) : js (list string) :=
  match src w with
  | None => throw (ENOENT "scandir" srcDir)
  | Some (File _) => throw (ENOTDIR "scandir" srcDir)
  | Some (Dir files) => js_ret (scanDirectory (Dir files) [])
  end.

(** [grant.startsWith(prefix)] *)
Definition startsWith (s prefix : string) : bool := String.prefix prefix s.

Definition missing (grants gmApiCalls : list string) : list string :=
  filter (λ api, ¬ Set_has grants api) gmApiCalls.

Definition unused (grants gmApiCalls : list string) : list string :=
  filter (λ grant, grant ≠ "none" ∧ startsWith grant "GM_"
                   ∧ ¬ Set_has gmApiCalls grant) grants.

Definition nl : string := String "010" "".
Definition dquote : string := String "034" "".

Definition item (api : string) : string := "   - " +:+ api.

Definition missing_header : string := "❌ Missing GM API grants in meta.json:".
Definition missing_advice : string :=
  nl +:+ "Add these to the " +:+ dquote +:+ "grant" +:+ dquote
     +:+ " array in meta.json" +:+ nl.
Definition unused_header : string := "⚠️  Unused GM API grants in meta.json:".
Definition unused_advice : string :=
  nl +:+ "Consider removing these from meta.json for better security" +:+ nl.
Definition success_message : string :=
  "✅ All GM API calls are properly granted!".

(** The report, from [let hasIssues = false] to the argument of
    [process.exit]. *)
Definition report (missing unused : list string) : js Z :=
  hasIssues <-
    (if bool_decide (0 < length missing) then
       console console_error missing_header ;;;
       forEach missing (λ api, console console_error (item api)) ;;;
       console console_error missing_advice ;;;
       js_ret true
     else js_ret false) ;;
  (if bool_decide (0 < length unused) then
     console console_warn unused_header ;;;
     forEach unused (λ api, console console_warn (item api)) ;;;
     console console_warn unused_advice
   else js_ret tt) ;;;
  (if negb hasIssues && bool_decide (length unused = 0) then
     console console_log success_message
   else js_ret tt) ;;;
  js_ret (if hasIssues : bool then 1%Z else 0%Z).

(** [new Set(meta.grant || [])] *)
Definition grants_of (meta : Meta) : list string :=
  new_Set (default [] (grant meta)).

(** The script, top to bottom. *)
Definition check_grants (w : world) : js Z :=
  meta <- readManifest w (path_join (rootDir w) "meta.json") ;;
  let grants := grants_of meta in
  gmApiCalls <- scanSources w (path_join (rootDir w) "src") ;;
  report (missing grants gmApiCalls) (unused grants gmApiCalls).

(** A run of the process: the console starts empty; an uncaught exception
    ends the process with exit code 1. *)
Definition run (w : world) : result Z * list (stream * string) :=
  check_grants w [].

Definition exit_code (r : result Z * list (stream * string)) : Z :=
  match r.1 with
  | Ok code => code
  | Throw _ => 1
  end.

Definition printed (r : result Z * list (stream * string))
    : list (stream * string) := r.2.

(** ** The version check (scripts/check-version-sync.js) *)

(** A parsed [package.json] or [meta.json] as the version check uses it:
    an object whose [version] field, when present, is a string. *)
Record Versioned := { version : option string }.

Inductive json_file :=
| Absent
| Malformed (text : string)
| Json (fields : Versioned).

Record version_world := {
  projectDir : string;
  package_json : json_file;
  version_meta_json : json_file
}.

(** [JSON.parse(fs.readFileSync(path, 'utf8'))] *)
Definition readJson (f : json_file) (path : string) : js Versioned :=
  match f with
  | Absent => throw (ENOENT "open" path)
  | Malformed text => throw (SyntaxError text)
  | Json fields => js_ret fields
  end.

(** A version inside a template literal: a missing field shows as
    [undefined]. *)
Definition shown (v : option string) : string := default "undefined" v.

Definition mismatch_header : string := "❌ Version mismatch detected:".
Definition mismatch_advice : string :=
  nl +:+ "Please update both files to have the same version." +:+ nl.
Definition in_sync (v : option string) : string :=
  "✅ Versions are in sync: " +:+ shown v.

(** The script, top to bottom; [process.exit(1)] ends the mismatch
    branch. *)
Definition check_version_sync (w : version_world) : js Z :=
  packageJson <- readJson (package_json w)
                   (path_join (projectDir w) "package.json") ;;
  let packageVersion := version packageJson in
  metaJson <- readJson (version_meta_json w)
                (path_join (projectDir w) "meta.json") ;;
  let metaVersion := version metaJson in
  if bool_decide (packageVersion ≠ metaVersion) then
    console console_error mismatch_header ;;;
    console console_error ("   package.json: " +:+ shown packageVersion) ;;;
    console console_error ("   meta.json:    " +:+ shown metaVersion) ;;;
    console console_error mismatch_advice ;;;
    js_ret 1%Z
  else
    console console_log (in_sync packageVersion) ;;;
    js_ret 0%Z.

Definition run_version_sync (w : version_world)
    : result Z * list (stream * string) :=
  check_version_sync w [].

(** ** The userscript (src/utils.ts, src/index.ts) *)

(** [log(message)] *)
Definition log (message : string) : js unit :=
  console console_log ("[UserScript] " +:+ message).

(** [main()] *)
Definition main : js unit := log "Hello from TypeScript Userscript!".

(** ** The template's own sources *)

(** [src/utils.ts] up to the commented-out [addStyles]. *)
Definition utils_ts_head : string := "/**
 * Example utility functions - add more as needed
 */

/**
 * Logs a message with a prefix
 */
export function log(message: string): void {
  console.log(`[UserScript] ${message}`);
}

// /**
//  * Waits for an element to appear in the DOM
//  */
// export function waitForElement(selector: string, timeout = 5000): Promise<Element> {
//   return new Promise((resolve, reject) => {
//     const startTime = Date.now();
//     const checkElement = () => {
//       const element = document.querySelector(selector);
//       if (element) {
//         resolve(element);
//       } else if (Date.now() - startTime > timeout) {
//         reject(new Error(`Timeout waiting for element: ${selector}`));
//       } else {
//         setTimeout(checkElement, 100);
//       }
//     };
//     checkElement();
//   });
// }

".

(** The rest of [src/utils.ts]: the commented-out [addStyles]. *)
Definition utils_ts_addStyles : string := "// /**
//  * Add CSS styles using GM_addStyle
//  */
// export function addStyles(css: string): void {
//   GM_addStyle(css);
// }
".

Definition utils_ts : string := utils_ts_head +:+ utils_ts_addStyles.

Definition index_ts : string := "import { log } from './utils';

/**
 * Main entry point for the userscript
 */
function main(): void {
  log('Hello from TypeScript Userscript!');
}

// Start the userscript when DOM is ready
if (document.readyState === 'loading') {
  document.addEventListener('DOMContentLoaded', main);
} else {
  main();
}
".

Definition template_src (utils : string) : node :=
  Dir [("index.ts", File index_ts); ("utils.ts", File utils)].

Definition template_world (utils : string) : world :=
  {| rootDir := "/repo";
     meta_json := Parsed {| grant := Some ["GM_addStyle"] |};
     src := Some (template_src utils) |}.

(** ** Notions the statements use *)

Fixpoint allWord (s : string) : bool :=
  match s with
  | String c s' => isWordChar c && allWord s'
  | EmptyString => true
  end.

(** [x] is [prefix] followed by one or more word characters. *)
Definition token_shape (prefix x : string) : Prop :=
  ∃ w, x = prefix +:+ w ∧ w ≠ "" ∧ allWord w.

(** [x] occurs in [text] as a token of that shape that no word character
    touches, on either side. *)
Definition maximal_token (prefix text x : string) : Prop :=
  ∃ pre post, text = pre +:+ x +:+ post ∧ token_shape prefix x
    ∧ ¬ isWordAt (last_char None pre) ∧ ¬ isWordAt (first_char post).

(** A file named [file] with text [content] lies somewhere under a
    directory. *)
Inductive contains : node → string → string → Prop :=
| contains_here files file content :
    (file, File content) ∈ files → contains (Dir files) file content
| contains_below files d sub file content :
    (d, sub) ∈ files → contains sub file content →
    contains (Dir files) file content.

(** A gated identifier found in the source tree. *)
Definition occurs (dir : node) (x : string) : Prop :=
  ∃ file content, contains dir file content ∧ isSourceFile file
    ∧ maximal_token "GM_" content x.

(** The same tree, whatever the order in which a directory lists its
    entries. *)
Inductive same_tree : node → node → Prop :=
| same_File content : same_tree (File content) (File content)
| same_Dir files1 files files2 :
    Forall2 (λ a b, a.1 = b.1 ∧ same_tree a.2 b.2) files1 files →
    files ≡ₚ files2 →
    same_tree (Dir files1) (Dir files2).

Definition same_src (s1 s2 : option node) : Prop :=
  match s1, s2 with
  | Some t1, Some t2 => same_tree t1 t2
  | None, None => True
  | _, _ => False
  end.

(** The unused grants as they would be computed without the test against
    the sentinel: the prefix test and the occurrence test only. *)
Definition unused_without_sentinel (grants gmApiCalls : list string)
    : list string :=
  filter (λ grant, startsWith grant "GM_" ∧ ¬ Set_has gmApiCalls grant) grants.

(** The lines of the report. *)
Definition items (s : stream) (l : list string) : list (stream * string) :=
  (λ api, (s, item api)) <$> l.

Definition missing_block (missing : list string) : list (stream * string) :=
  if bool_decide (missing = []) then []
  else (console_error, missing_header) :: items console_error missing
       ++ [(console_error, missing_advice)].

Definition unused_block (unused : list string) : list (stream * string) :=
  if bool_decide (unused = []) then []
  else (console_warn, unused_header) :: items console_warn unused
       ++ [(console_warn, unused_advice)].

Definition success_block (missing unused : list string)
    : list (stream * string) :=
  if bool_decide (missing = [] ∧ unused = []) then
    [(console_log, success_message)]
  else [].

(** How many times a line was printed. *)
Definition times (line : stream * string) (out : list (stream * string))
    : nat :=
  length (filter (λ l, l = line) out).

(** The summary lines of a report: the success message and the guidance
    that follows the missing grants. *)
Definition summary_lines (out : list (stream * string))
    : list (stream * string) :=
  filter (λ l, l = (console_log, success_message)
               ∨ l = (console_error, missing_advice)) out.

(** The closing lines of a report: the summary lines and the advice that
    follows the unused grants. *)
Definition closing_lines (out : list (stream * string))
    : list (stream * string) :=
  filter (λ l, l = (console_log, success_message)
               ∨ l = (console_error, missing_advice)
               ∨ l = (console_warn, unused_advice)) out.

(** The texts printed on a stream, as a set. *)
Definition diagnostics (s : stream) (out : list (stream * string))
    : gset string :=
  list_to_set (snd <$> filter (λ l, l.1 = s) out).

(** ** Auxiliary notions of the proofs *)

(** The pattern tried at every position, one after the other. *)
Fixpoint matchEvery (prev : option ascii) (s : string) : list string :=
  match s with
  | EmptyString => []
  | String c s' => option_list (matchAt prev s) ++ matchEvery (Some c) s'
  end.

(** The first [k] characters of [s] are there and are word characters. *)
Fixpoint wordsAhead (k : nat) (s : string) : bool :=
  match k, s with
  | O, _ => true
  | S k', String c s' => isWordChar c && wordsAhead k' s'
  | S _, EmptyString => false
  end.

(** ** Facts about the regular expression *)

Lemma app_String c s t : String c s +:+ t = String c (s +:+ t).
Proof. reflexivity. Qed.

Lemma app_empty_l t : "" +:+ t = t.
Proof. reflexivity. Qed.

Lemma app_empty_r s : s +:+ "" = s.
Proof. induction s as [|c s IH]; [done|]. by rewrite app_String, IH. Qed.

Lemma app_assoc_s s t u : (s +:+ t) +:+ u = s +:+ t +:+ u.
Proof.
  induction s as [|c s IH]; [done|]. by rewrite !app_String, IH.
Qed.

Lemma length_app_s s t :
  String.length (s +:+ t) = String.length s + String.length t.
Proof.
  induction s as [|c s IH]; [done|]. rewrite app_String. simpl. by rewrite IH.
Qed.

Lemma last_char_app prev s t :
  last_char prev (s +:+ t) = last_char (last_char prev s) t.
Proof.
  revert prev. induction s as [|c s IH]; intros prev; [done|].
  rewrite app_String. simpl. apply IH.
Qed.

Lemma literal_Some chars s rest :
  literal chars s = Some rest ↔ s = chars +:+ rest.
Proof.
  revert s. induction chars as [|a chars IH]; intros s; simpl.
  - rewrite app_empty_l. split; congruence.
  - rewrite app_String. destruct s as [|b s]; [split; congruence|].
    case_decide; [|split; congruence]. rewrite IH. split; congruence.
Qed.

Lemma wordRun_allWord s : allWord (wordRun s).
Proof.
  induction s as [|c s IH]; simpl; [done|].
  destruct (isWordChar c) eqn:Hc; simpl; [|done]. rewrite Hc. done.
Qed.

Lemma wordRun_split s :
  ∃ post, s = wordRun s +:+ post ∧ ¬ isWordAt (first_char post).
Proof.
  induction s as [|c s (post & IH & Hpost)]; simpl.
  - exists "". split; [done|]. simpl. tauto.
  - destruct (isWordChar c) eqn:Hc.
    + exists post. rewrite app_String, <-IH. done.
    + exists (String c s). rewrite app_empty_l. simpl. rewrite Hc. auto.
Qed.

Lemma wordRun_app w post :
  allWord w → ¬ isWordAt (first_char post) → wordRun (w +:+ post) = w.
Proof.
  intros Hw Hpost. induction w as [|c w IH].
  - rewrite app_empty_l. destruct post as [|d post]; [done|].
    simpl in *. by destruct (isWordChar d).
  - rewrite app_String. simpl in *.
    apply andb_prop_elim in Hw as [Hc Hw].
    destruct (isWordChar c); [|done]. by rewrite IH.
Qed.

Lemma matchAt_Some prev s x :
  matchAt prev s = Some x ↔
  ∃ post, s = x +:+ post ∧ token_shape "GM_" x
    ∧ ¬ isWordAt prev ∧ ¬ isWordAt (first_char post).
Proof.
  unfold matchAt. split.
  - destruct (wordBoundary prev s) eqn:Hb; [|done].
    destruct (literal "GM_" s) as [rest|] eqn:Hl; [|done].
    apply literal_Some in Hl as ->.
    destruct (wordRun rest) as [|c w] eqn:Hw; [done|]. intros [= <-].
    destruct (wordRun_split rest) as (post & Hrest & Hpost).
    exists post. repeat split.
    + rewrite app_assoc_s, <-Hw, <-Hrest. done.
    + exists (String c w). repeat split; [done|].
      rewrite <-Hw. apply wordRun_allWord.
    + unfold wordBoundary in Hb. simpl in Hb.
      destruct (isWordAt prev); [done|tauto].
    + done.
  - intros (post & -> & (w & -> & Hne & Hw) & Hprev & Hpost).
    unfold wordBoundary. simpl.
    destruct (isWordAt prev); [by destruct Hprev|]. simpl.
    rewrite app_assoc_s, app_empty_l, wordRun_app by done. by destruct w.
Qed.

Lemma wordsAhead_app u post :
  allWord u → wordsAhead (String.length u) (u +:+ post).
Proof.
  induction u as [|c u IH]; simpl; [done|].
  intros [Hc Hu]%andb_prop_elim. apply andb_prop_intro. auto.
Qed.

(** Resuming the search at the end of a match skips no match: inside a
    match every position lies between two word characters. *)
Lemma matchAll_from_every s prev k :
  k = 0 ∨ (isWordAt prev ∧ wordsAhead k s) →
  matchAll_from prev k s = matchEvery prev s.
Proof.
  revert prev k. induction s as [|c s IH]; intros prev k Hk; [done|].
  destruct k as [|k]; simpl.
  - destruct (matchAt prev (String c s)) as [m|] eqn:Hm; simpl.
    + f_equal. apply IH. right.
      apply matchAt_Some in Hm as (post & Hs & (w & -> & _ & Hw) & _ & _).
      change ("GM_" +:+ w) with (String "G" ("M_" +:+ w)) in *.
      rewrite app_String in Hs. injection Hs as -> ->. split; [done|].
      change (String.length (String "G" ("M_" +:+ w)) - 1)
        with (String.length ("M_" +:+ w) - 0).
      rewrite Nat.sub_0_r. by apply (wordsAhead_app ("M_" +:+ w)).
    + apply IH. by left.
  - destruct Hk as [|[Hprev Hk]]; [done|].
    change (Is_true (isWordChar c && wordsAhead k s)) in Hk.
    apply andb_prop_elim in Hk as [Hc Hs].
    unfold matchAt, wordBoundary. simpl.
    destruct (isWordAt prev); [|done].
    destruct (isWordChar c) eqn:Ec; [|done]. simpl.
    apply IH. right. simpl. by rewrite Ec.
Qed.

Lemma app_eq_empty s t : s +:+ t = "" → s = "" ∧ t = "".
Proof. by destruct s. Qed.

Lemma token_shape_nonempty prefix x : token_shape prefix x → x ≠ "".
Proof.
  intros (w & -> & Hne & _) [_ ?]%app_eq_empty. done.
Qed.

Lemma matchEvery_spec s prev x :
  x ∈ matchEvery prev s ↔
  ∃ pre post, s = pre +:+ x +:+ post ∧ token_shape "GM_" x
    ∧ ¬ isWordAt (last_char prev pre) ∧ ¬ isWordAt (first_char post).
Proof.
  revert prev. induction s as [|c s IH]; intros prev; simpl.
  - split; [by intros ?%elem_of_nil|].
    intros (pre & post & Heq & Hx & _). symmetry in Heq.
    apply app_eq_empty in Heq as [_ [-> _]%app_eq_empty].
    by apply token_shape_nonempty in Hx.
  - rewrite elem_of_app, IH. split.
    + intros [Hm|(pre & post & -> & Hx & Hpre & Hpost)].
      * destruct (matchAt prev (String c s)) as [m|] eqn:Hm'; simpl in Hm;
          [|by apply elem_of_nil in Hm].
        apply list_elem_of_singleton in Hm as ->.
        apply matchAt_Some in Hm' as (post & Hs & Hx & Hprev & Hpost).
        by exists "", post.
      * by exists (String c pre), post.
    + intros ([|c' pre] & post & Hs & Hx & Hpre & Hpost).
      * left. rewrite app_empty_l in Hs.
        assert (matchAt prev (String c s) = Some x) as ->; [|by left].
        apply matchAt_Some. by exists post.
      * right. rewrite app_String in Hs. injection Hs as -> ->.
        by exists pre, post.
Qed.

Lemma matchAll_spec text x :
  x ∈ matchAll text ↔ maximal_token "GM_" text x.
Proof.
  unfold matchAll. rewrite matchAll_from_every by by left.
  apply matchEvery_spec.
Qed.

(** ** Sets and the scan *)

Lemma elem_of_Set_add s y x : x ∈ Set_add s y ↔ x ∈ s ∨ x = y.
Proof.
  unfold Set_add, Set_has. case_bool_decide as Hy.
  - split; [auto|]. by intros [?| ->].
  - by rewrite elem_of_app, list_elem_of_singleton.
Qed.

Lemma NoDup_Set_add s y : NoDup s → NoDup (Set_add s y).
Proof.
  intros Hs. unfold Set_add, Set_has. case_bool_decide as Hy; [done|].
  apply NoDup_app. repeat split; [done| |apply NoDup_singleton].
  intros x Hx ->%list_elem_of_singleton. done.
Qed.

Lemma elem_of_foldl_Set_add l s x :
  x ∈ foldl Set_add s l ↔ x ∈ s ∨ x ∈ l.
Proof.
  revert s. induction l as [|y l IH]; intros s; simpl.
  - rewrite elem_of_nil. tauto.
  - rewrite IH, elem_of_Set_add, elem_of_cons. tauto.
Qed.

Lemma NoDup_foldl_Set_add l s : NoDup s → NoDup (foldl Set_add s l).
Proof.
  revert s. induction l as [|y l IH]; intros s Hs; simpl; [done|].
  by apply IH, NoDup_Set_add.
Qed.

Lemma elem_of_new_Set l x : x ∈ new_Set l ↔ x ∈ l.
Proof.
  unfold new_Set. rewrite elem_of_foldl_Set_add, elem_of_nil. tauto.
Qed.

Lemma NoDup_new_Set l : NoDup (new_Set l).
Proof. apply NoDup_foldl_Set_add, NoDup_nil_2. Qed.

Lemma elem_of_scanFile content calls x :
  x ∈ scanFile content calls ↔ x ∈ calls ∨ maximal_token "GM_" content x.
Proof.
  unfold scanFile. by rewrite elem_of_foldl_Set_add, matchAll_spec.
Qed.

Lemma NoDup_scanFile content calls :
  NoDup calls → NoDup (scanFile content calls).
Proof. apply NoDup_foldl_Set_add. Qed.

(** Induction on a tree, with the property known for every entry of a
    directory. *)
Lemma node_tree_ind (P : node → Prop) :
  (∀ content, P (File content)) →
  (∀ files, Forall (λ e, P e.2) files → P (Dir files)) →
  ∀ n, P n.
Proof.
  intros HFile HDir. fix IH 1. intros [content|files]; [apply HFile|].
  apply HDir. induction files as [|[file child] files IHfiles];
    constructor; [apply IH|apply IHfiles].
Qed.

Lemma contains_cons file child files f content :
  contains (Dir ((file, child) :: files)) f content ↔
  (file = f ∧ child = File content) ∨ contains child f content
  ∨ contains (Dir files) f content.
Proof.
  split.
  - inversion 1 as [? ? ? Hin|? d sub ? ? Hin Hsub]; subst.
    + apply elem_of_cons in Hin as [[= -> ->]|Hin]; [by left|].
      right; right. by apply contains_here.
    + apply elem_of_cons in Hin as [[= -> ->]|Hin]; [by right; left|].
      right; right. by apply contains_below with d sub.
  - intros [[-> ->]|[Hsub|Hrest]].
    + apply contains_here. by left.
    + apply contains_below with file child; [by left|done].
    + inversion Hrest as [? ? ? Hin|? d sub ? ? Hin Hsub]; subst.
      * apply contains_here. by right.
      * apply contains_below with d sub; [by right|done].
Qed.

Lemma contains_nil f content : ¬ contains (Dir []) f content.
Proof.
  inversion 1 as [? ? ? Hin|? d sub ? ? Hin Hsub]; by apply elem_of_nil in Hin.
Qed.

Lemma contains_File c f content : ¬ contains (File c) f content.
Proof. inversion 1. Qed.

Lemma occurs_cons file child files x :
  occurs (Dir ((file, child) :: files)) x ↔
  (∃ content, child = File content ∧ isSourceFile file
     ∧ maximal_token "GM_" content x)
  ∨ occurs child x ∨ occurs (Dir files) x.
Proof.
  unfold occurs. split.
  - intros (f & content & [[-> ->]|[Hc|Hc]]%contains_cons & Hf & Hx);
      [left|right; left|right; right]; eauto.
  - intros [(content & -> & Hf & Hx)|[(f & content & Hc & Hf & Hx)
                                     |(f & content & Hc & Hf & Hx)]].
    + exists file, content. split; [apply contains_cons; by left|done].
    + exists f, content. split; [apply contains_cons; right; by left|done].
    + exists f, content. split; [apply contains_cons; right; by right|done].
Qed.

Lemma scanDirectory_cons file child files calls :
  scanDirectory (Dir ((file, child) :: files)) calls
  = scanDirectory (Dir files)
      (match child with
       | Dir _ => scanDirectory child calls
       | File content =>
           if isSourceFile file then scanFile content calls else calls
       end).
Proof. reflexivity. Qed.

Lemma occurs_File c x : ¬ occurs (File c) x.
Proof. intros (f & content & Hc & _). by apply contains_File in Hc. Qed.

Lemma occurs_nil x : ¬ occurs (Dir []) x.
Proof. intros (f & content & Hc & _). by apply contains_nil in Hc. Qed.

(** The occurrence set after the walk: what was in it before, and the
    gated identifiers of the source files under the directory. *)
Lemma elem_of_scanDirectory dir :
  ∀ calls x, x ∈ scanDirectory dir calls ↔ x ∈ calls ∨ occurs dir x.
Proof.
  induction dir as [content|files IH] using node_tree_ind; intros calls x.
  - simpl. pose proof (occurs_File content x). tauto.
  - revert calls. induction files as [|[file child] files IHfiles];
      intros calls.
    + simpl. pose proof (occurs_nil x). tauto.
    + apply Forall_cons in IH as [IHchild IH]. simpl in IHchild.
      rewrite scanDirectory_cons, IHfiles, occurs_cons by done.
      destruct child as [content|sub].
      * pose proof (occurs_File content x) as HF.
        destruct (isSourceFile file) eqn:Hfile.
        -- rewrite elem_of_scanFile. split.
           ++ intros [[?|?]|?]; eauto 10.
           ++ intros [?|[(c & [= <-] & _ & ?)|[?|?]]]; tauto.
        -- split; [tauto|]. intros [?|[(c & [= <-] & [] & _)|[?|?]]]; tauto.
      * rewrite IHchild. split; [tauto|].
        intros [?|[(c & [=] & _)|[?|?]]]; tauto.
Qed.

Lemma NoDup_scanDirectory dir :
  ∀ calls, NoDup calls → NoDup (scanDirectory dir calls).
Proof.
  induction dir as [content|files IH] using node_tree_ind; intros calls Hnd.
  - done.
  - revert calls Hnd. induction files as [|[file child] files IHfiles];
      intros calls Hnd; [done|].
    apply Forall_cons in IH as [IHchild IH]. simpl in IHchild.
    rewrite scanDirectory_cons. apply IHfiles; [done|].
    destruct child as [content|sub]; [|by apply IHchild].
    destruct (isSourceFile file); [by apply NoDup_scanFile|done].
Qed.

(** ** Directory listings in another order *)

Lemma same_tree_contains t1 f content :
  contains t1 f content → ∀ t2, same_tree t1 t2 → contains t2 f content.
Proof.
  induction 1 as [files file content Hin|files d sub file content Hin _ IH];
    intros t2 Hsame;
    inversion Hsame as [|? files' files2 Hall Hperm]; subst;
    apply list_elem_of_lookup in Hin as [i Hi];
    destruct (Forall2_lookup_l _ _ _ _ _ Hall Hi) as ([f' n'] & Hi' & Hf & Hn);
    simpl in Hf, Hn; subst f';
    apply list_elem_of_lookup_2 in Hi'; rewrite Hperm in Hi'.
  - inversion Hn; subst. by apply contains_here.
  - apply contains_below with d n'; [done|]. by apply IH.
Qed.

Lemma contains_same_tree t2 f content :
  contains t2 f content → ∀ t1, same_tree t1 t2 → contains t1 f content.
Proof.
  induction 1 as [files file content Hin|files d sub file content Hin _ IH];
    intros t1 Hsame;
    inversion Hsame as [|files1 files' ? Hall Hperm]; subst;
    rewrite <-Hperm in Hin;
    apply list_elem_of_lookup in Hin as [i Hi];
    destruct (Forall2_lookup_r _ _ _ _ _ Hall Hi) as ([f' n'] & Hi' & Hf & Hn);
    simpl in Hf, Hn; subst f';
    apply list_elem_of_lookup_2 in Hi'.
  - inversion Hn; subst. by apply contains_here.
  - apply contains_below with d n'; [done|]. by apply IH.
Qed.

Lemma same_tree_occurs t1 t2 x :
  same_tree t1 t2 → occurs t1 x ↔ occurs t2 x.
Proof.
  intros Hsame. unfold occurs. split; intros (f & content & Hc & H);
    exists f, content; split; try done.
  - by apply same_tree_contains with t1.
  - by apply contains_same_tree with t2.
Qed.

Lemma same_tree_refl t : same_tree t t.
Proof.
  induction t as [content|files IH] using node_tree_ind; [constructor|].
  apply same_Dir with files; [|done].
  induction IH as [|[file child] files Hchild _ IHfiles]; constructor; done.
Qed.

(** ** The report *)

Lemma Set_has_true s x : Set_has s x ↔ x ∈ s.
Proof. unfold Set_has. apply bool_decide_spec. Qed.

Lemma elem_of_missing grants calls x :
  x ∈ missing grants calls ↔ x ∈ calls ∧ x ∉ grants.
Proof.
  unfold missing. rewrite list_elem_of_filter, Set_has_true. tauto.
Qed.

Lemma elem_of_unused grants calls g :
  g ∈ unused grants calls ↔
  g ∈ grants ∧ g ≠ "none" ∧ startsWith g "GM_" ∧ g ∉ calls.
Proof.
  unfold unused. rewrite list_elem_of_filter, Set_has_true. tauto.
Qed.

Lemma bind_ret {A B} (a : A) (k : A → js B) out :
  js_bind (js_ret a) k out = k a out.
Proof. reflexivity. Qed.

Lemma bind_console {B} s text (k : unit → js B) out :
  js_bind (console s text) k out = k tt (out ++ [(s, text)]).
Proof. reflexivity. Qed.

Lemma bind_bind {A B C} (m : js A) (k : A → js B) (k' : B → js C) out :
  js_bind (js_bind m k) k' out = js_bind m (λ a, js_bind (k a) k') out.
Proof. unfold js_bind. by destruct (m out) as [[a|e] out']. Qed.

Lemma bind_forEach {B} s l (k : unit → js B) out :
  js_bind (forEach l (λ api, console s (item api))) k out
  = k tt (out ++ items s l).
Proof.
  revert out. induction l as [|x l IH]; intros out; simpl.
  - by rewrite bind_ret, app_nil_r.
  - by rewrite bind_bind, bind_console, IH, <-app_assoc.
Qed.

Lemma positive_length_nonempty {A} (l : list A) :
  bool_decide (0 < length l) = negb (bool_decide (l = [])).
Proof. by destruct l. Qed.

Lemma zero_length_empty {A} (l : list A) :
  bool_decide (length l = 0) = bool_decide (l = []).
Proof. by destruct l. Qed.

Lemma report_spec m u out :
  report m u out
  = (Ok (if bool_decide (m = []) then 0 else 1)%Z,
     out ++ missing_block m ++ unused_block u ++ success_block m u).
Proof.
  unfold report, missing_block, unused_block, success_block.
  rewrite !positive_length_nonempty, zero_length_empty, bool_decide_and.
  destruct (bool_decide (m = [])), (bool_decide (u = [])); simpl negb;
    cbv iota; rewrite ?bind_bind, ?bind_ret, ?bind_console, ?bind_bind,
      ?bind_forEach, ?bind_bind, ?bind_console, ?bind_ret, ?bind_bind,
      ?bind_console, ?bind_bind, ?bind_forEach, ?bind_bind, ?bind_console,
      ?bind_ret;
    simpl andb; cbv iota; rewrite ?bind_ret, ?bind_console; unfold js_ret;
    rewrite <-?app_assoc, ?app_nil_r; simpl; rewrite <-?app_assoc; done.
Qed.

Lemma run_completed root meta files :
  run {| rootDir := root; meta_json := Parsed meta;
         src := Some (Dir files) |}
  = (Ok (if bool_decide
              (missing (grants_of meta) (scanDirectory (Dir files) []) = [])
         then 0 else 1)%Z,
     missing_block (missing (grants_of meta) (scanDirectory (Dir files) []))
     ++ unused_block (unused (grants_of meta) (scanDirectory (Dir files) []))
     ++ success_block
          (missing (grants_of meta) (scanDirectory (Dir files) []))
          (unused (grants_of meta) (scanDirectory (Dir files) []))).
Proof.
  unfold run, check_grants, js_bind. simpl. unfold js_ret.
  by rewrite report_spec.
Qed.

Lemma elem_of_grants_of meta x :
  x ∈ grants_of meta ↔ x ∈ default [] (grant meta).
Proof. apply elem_of_new_Set. Qed.

Lemma NoDup_missing grants calls : NoDup calls → NoDup (missing grants calls).
Proof. apply NoDup_filter. Qed.

Lemma missing_nil grants dir :
  missing grants (scanDirectory dir []) = [] ↔
  ∀ x, occurs dir x → x ∈ grants.
Proof.
  split.
  - intros Hnil x Hx. destruct (decide (x ∈ grants)) as [|Hg]; [done|].
    assert (x ∈ missing grants (scanDirectory dir [])) as Hin.
    { apply elem_of_missing. split; [|done].
      apply elem_of_scanDirectory. by right. }
    rewrite Hnil in Hin. by apply elem_of_nil in Hin.
  - intros Hall. apply elem_of_nil_inv. intros x [Hx Hg]%elem_of_missing.
    apply elem_of_scanDirectory in Hx as [Hx|Hx]; [by apply elem_of_nil in Hx|].
    by apply Hg, Hall.
Qed.

Lemma item_inj : Inj (=) (=) item.
Proof. intros x y. unfold item. apply String.app_inj. Qed.

Lemma line_item_inj (s s' : stream) x y :
  (s, item x) = (s', item y) → x = y.
Proof. intros Heq%(f_equal snd). by apply item_inj in Heq. Qed.

Lemma times_app line out1 out2 :
  times line (out1 ++ out2) = times line out1 + times line out2.
Proof. unfold times. by rewrite filter_app, length_app. Qed.

Lemma times_cons line l out :
  times line (l :: out) = (if decide (l = line) then 1 else 0) + times line out.
Proof.
  unfold times. rewrite filter_cons. by destruct (decide (l = line)).
Qed.

Lemma times_nil line : times line [] = 0.
Proof. reflexivity. Qed.

Lemma times_zero line out : line ∉ out → times line out = 0.
Proof.
  intros Hout. unfold times.
  rewrite (elem_of_nil_inv (filter (λ l, l = line) out)); [done|].
  by intros l [-> ?]%list_elem_of_filter.
Qed.

Lemma elem_of_items s t s' l :
  (s, t) ∈ items s' l ↔ s = s' ∧ ∃ x, t = item x ∧ x ∈ l.
Proof.
  unfold items. rewrite list_elem_of_fmap. split.
  - intros (x & [= -> ->] & Hx). eauto.
  - intros (-> & x & -> & Hx). eauto.
Qed.

Lemma times_items s x l :
  NoDup l → x ∈ l → times (s, item x) (items s l) = 1.
Proof.
  induction 1 as [|y l Hy Hnd IH]; [by intros ?%elem_of_nil|].
  intros Hx. change (items s (y :: l)) with ((s, item y) :: items s l).
  rewrite times_cons.
  apply elem_of_cons in Hx as [->|Hx].
  - rewrite decide_True by done. rewrite times_zero; [done|].
    intros (_ & z & ->%item_inj & Hz)%elem_of_items. done.
  - rewrite decide_False, IH by (try done; intros ->%line_item_inj; done).
    done.
Qed.

Lemma times_items_other (s s' : stream) t l :
  s ≠ s' → times (s, t) (items s' l) = 0.
Proof.
  intros Hs. apply times_zero. by intros [? _]%elem_of_items.
Qed.

Lemma times_items_count s x l :
  NoDup l →
  times (s, item x) (items s l) = if bool_decide (x ∈ l) then 1 else 0.
Proof.
  intros Hnd. case_bool_decide as Hx; [by apply times_items|].
  apply times_zero. intros (_ & y & ->%item_inj & Hy)%elem_of_items. done.
Qed.

Lemma header_not_item (s s' : stream) header x :
  first_char header ≠ Some " "%char → (s, header) ≠ (s', item x).
Proof.
  intros Hfirst Heq%(f_equal snd). simpl in Heq. subst header. done.
Qed.

Lemma times_item_missing_block s x m :
  NoDup m →
  times (s, item x) (missing_block m)
  = if bool_decide (s = console_error ∧ x ∈ m) then 1 else 0.
Proof.
  intros Hnd. unfold missing_block. case_bool_decide as Hnil.
  - subst m. rewrite bool_decide_eq_false_2; [done|].
    by intros [_ ?%elem_of_nil].
  - rewrite times_cons, times_app, times_cons, times_nil.
    rewrite !decide_False by by apply header_not_item.
    destruct (decide (s = console_error)) as [->|Hs].
    + rewrite times_items_count by done.
      rewrite (bool_decide_ext (_ ∧ _) (x ∈ m)) by tauto.
      case_bool_decide; done.
    + rewrite times_items_other by done.
      rewrite bool_decide_eq_false_2; [done|]. tauto.
Qed.

Lemma times_item_unused_block s x u :
  NoDup u →
  times (s, item x) (unused_block u)
  = if bool_decide (s = console_warn ∧ x ∈ u) then 1 else 0.
Proof.
  intros Hnd. unfold unused_block. case_bool_decide as Hnil.
  - subst u. rewrite bool_decide_eq_false_2; [done|].
    by intros [_ ?%elem_of_nil].
  - rewrite times_cons, times_app, times_cons, times_nil.
    rewrite !decide_False by by apply header_not_item.
    destruct (decide (s = console_warn)) as [->|Hs].
    + rewrite times_items_count by done.
      rewrite (bool_decide_ext (_ ∧ _) (x ∈ u)) by tauto.
      case_bool_decide; done.
    + rewrite times_items_other by done.
      rewrite bool_decide_eq_false_2; [done|]. tauto.
Qed.

Lemma times_item_success_block s x m u :
  times (s, item x) (success_block m u) = 0.
Proof.
  unfold success_block. case_bool_decide; [|done].
  rewrite times_cons, times_nil, decide_False; [done|].
  by apply header_not_item.
Qed.

(** How often the line of an identifier is printed by a completed run. *)
Lemma times_item_report s x m u :
  NoDup m → NoDup u →
  times (s, item x) (missing_block m ++ unused_block u ++ success_block m u)
  = (if bool_decide (s = console_error ∧ x ∈ m) then 1 else 0)
    + (if bool_decide (s = console_warn ∧ x ∈ u) then 1 else 0).
Proof.
  intros Hm Hu.
  rewrite !times_app, times_item_missing_block, times_item_unused_block,
    times_item_success_block by done. lia.
Qed.

Lemma NoDup_unused grants calls : NoDup grants → NoDup (unused grants calls).
Proof. apply NoDup_filter. Qed.

Lemma NoDup_report_sets meta dir :
  NoDup (missing (grants_of meta) (scanDirectory dir []))
  ∧ NoDup (unused (grants_of meta) (scanDirectory dir [])).
Proof.
  split; [apply NoDup_missing, NoDup_scanDirectory, NoDup_nil_2|].
  apply NoDup_unused, NoDup_new_Set.
Qed.

Lemma exit_code_completed root meta files :
  exit_code (run {| rootDir := root; meta_json := Parsed meta;
                    src := Some (Dir files) |})
  = if bool_decide
         (missing (grants_of meta) (scanDirectory (Dir files) []) = [])
    then 0%Z else 1%Z.
Proof. by rewrite run_completed. Qed.

Lemma occurs_scanned dir x : x ∈ scanDirectory dir [] ↔ occurs dir x.
Proof.
  rewrite elem_of_scanDirectory. split; [|by right].
  by intros [?%elem_of_nil|?].
Qed.

(** ** The exit code *)

(** C1: for every manifest and source tree the exit code is 1 when some
    gated identifier found in the source is absent from the grants, and 0
    otherwise, that is when every gated identifier found is granted; it is
    a function of the missing set alone, so two manifests that grant the
    same identifiers among those found, however many unused grants either
    lists, exit alike. *)
Theorem exit_code_by_missing root meta files :
  let run_with m :=
    run {| rootDir := root; meta_json := Parsed m; src := Some (Dir files) |} in
  (exit_code (run_with meta) = 1%Z ↔
     ∃ x, occurs (Dir files) x ∧ x ∉ grants_of meta)
  ∧ (exit_code (run_with meta) = 0%Z ↔
     ∀ x, occurs (Dir files) x → x ∈ grants_of meta)
  ∧ exit_code (run_with meta)
    = (if bool_decide
            (missing (grants_of meta) (scanDirectory (Dir files) []) = [])
       then 0%Z else 1%Z)
  ∧ ∀ meta',
      (∀ x, occurs (Dir files) x → x ∈ grants_of meta ↔ x ∈ grants_of meta') →
      exit_code (run_with meta') = exit_code (run_with meta).
Proof.
  intros run_with. unfold run_with. rewrite exit_code_completed.
  repeat split.
  - case_bool_decide as Hm; [done|]. intros _.
    destruct (missing (grants_of meta) (scanDirectory (Dir files) []))
      as [|x l] eqn:Hl; [done|].
    assert (x ∈ missing (grants_of meta) (scanDirectory (Dir files) []))
      as [Hx Hg]%elem_of_missing by (rewrite Hl; left).
    exists x. by rewrite <-occurs_scanned.
  - intros (x & Hx & Hg). rewrite bool_decide_eq_false_2; [done|].
    rewrite missing_nil. intros Hall. by apply Hg, Hall.
  - case_bool_decide as Hm; [|done]. intros _. by apply missing_nil.
  - intros Hall. rewrite bool_decide_eq_true_2; [done|]. by apply missing_nil.
  - intros meta' Hsame. rewrite exit_code_completed.
    apply (f_equal (λ b : bool, if b then 0%Z else 1%Z)).
    apply bool_decide_ext. rewrite !missing_nil.
    split; intros Hall x Hx; apply Hsame, Hall; done.
Qed.

(** C2: if a gated identifier that occurs in the source is absent from the
    grants, the run exits 1 and the line reporting that identifier as
    missing is printed exactly once, whatever the number of files and call
    sites it occurs at. *)
Theorem missing_reported_once root meta files x :
  occurs (Dir files) x → x ∉ grants_of meta →
  let r := run {| rootDir := root; meta_json := Parsed meta;
                  src := Some (Dir files) |} in
  exit_code r = 1%Z ∧ times (console_error, item x) (printed r) = 1.
Proof.
  intros Hx Hg r. unfold r.
  assert (x ∈ missing (grants_of meta) (scanDirectory (Dir files) [])) as Hin.
  { apply elem_of_missing. by rewrite occurs_scanned. }
  destruct (NoDup_report_sets meta (Dir files)) as [Hm Hu].
  rewrite run_completed. unfold exit_code, printed. cbn [fst snd]. split.
  - rewrite bool_decide_eq_false_2; [done|].
    intros Hnil. rewrite Hnil in Hin. by apply elem_of_nil in Hin.
  - rewrite times_item_report by done.
    rewrite bool_decide_eq_true_2 by done.
    by rewrite bool_decide_eq_false_2 by (by intros [? _]).
Qed.

Lemma missing_reported_once_witness :
  let files :=
    [("index.ts", File "GM_getValue(k); GM_setValue(k, GM_getValue(k));");
     ("lib", Dir [("store.js", File "return GM_getValue(name);")])] in
  let r := run {| rootDir := "/repo";
                  meta_json := Parsed {| grant := Some ["GM_setValue"] |};
                  src := Some (Dir files) |} in
  exit_code r = 1%Z ∧ times (console_error, item "GM_getValue") (printed r) = 1.
Proof.
  apply (missing_reported_once "/repo" {| grant := Some ["GM_setValue"] |}).
  - apply occurs_scanned. vm_compute. apply list_elem_of_In. simpl. tauto.
  - vm_compute. intros H%list_elem_of_In. simpl in H. intuition discriminate.
Defined.

(** ** The two sets of the report *)

Lemma sentinel_unprefixed : startsWith "none" "GM_" = false.
Proof. reflexivity. Qed.

Lemma prefixed_not_sentinel g : startsWith g "GM_" → g ≠ "none".
Proof. intros Hg ->. by rewrite sentinel_unprefixed in Hg. Qed.

(** C3, as stated, fails: a grant without the prefix that the source never
    mentions is in the difference of the grants and the occurrences, and is
    not the sentinel, yet it is not in the unused set. *)
Lemma unused_is_not_the_plain_difference :
  list_to_set (unused ["unsafeWindow"] [])
  ≠@{gset string} (list_to_set ["unsafeWindow"] ∖ list_to_set []) ∖ {["none"]}.
Proof.
  intros Heq.
  assert ("unsafeWindow" ∈ list_to_set (C:=gset string)
                             (unused ["unsafeWindow"] [])) as Hin.
  { rewrite Heq. rewrite !elem_of_difference, elem_of_list_to_set.
    repeat split; [by left|by intros ?%elem_of_list_to_set%elem_of_nil|].
    by intros [=]%elem_of_singleton. }
  apply elem_of_list_to_set, elem_of_unused in Hin as (_ & _ & Hp & _).
  done.
Qed.

(** C3, amended: the missing set is the difference of the occurrences and
    the grants; the unused set is the difference of the grants and the
    occurrences restricted to the grants that carry the prefix [GM_] (the
    sentinel is not among them); membership is plain string equality. *)
Theorem report_set_differences (grants calls : list string) :
  list_to_set (missing grants calls)
  =@{gset string} list_to_set calls ∖ list_to_set grants
  ∧ list_to_set (unused grants calls)
    =@{gset string}
      filter (λ g, startsWith g "GM_") (list_to_set grants ∖ list_to_set calls)
  ∧ missing grants calls = filter (λ api, api ∉ grants) calls
  ∧ unused grants calls
    = filter (λ g, startsWith g "GM_" ∧ g ∉ calls) grants
  ∧ "none" ∉ unused grants calls.
Proof.
  repeat split.
  - apply set_eq. intros x.
    rewrite elem_of_difference, !elem_of_list_to_set. apply elem_of_missing.
  - apply set_eq. intros x.
    rewrite elem_of_filter, elem_of_difference, !elem_of_list_to_set,
      elem_of_unused.
    split; [tauto|]. intros (Hp & Hg & Hc).
    by pose proof (prefixed_not_sentinel x Hp).
  - apply list_filter_iff. intros x. by rewrite Set_has_true.
  - apply list_filter_iff. intros x. rewrite Set_has_true.
    split; [tauto|]. intros [Hp Hc].
    by pose proof (prefixed_not_sentinel x Hp).
  - intros (_ & Hne & _)%elem_of_unused. done.
Qed.

Lemma printed_aborted_or_completed w :
  printed (run w) = []
  ∨ ∃ meta files,
      printed (run w)
      = missing_block (missing (grants_of meta) (scanDirectory (Dir files) []))
        ++ unused_block (unused (grants_of meta) (scanDirectory (Dir files) []))
        ++ success_block
             (missing (grants_of meta) (scanDirectory (Dir files) []))
             (unused (grants_of meta) (scanDirectory (Dir files) [])).
Proof.
  destruct w as [root [|text|meta] [[content|files]|]]; try by left.
  right. exists meta, files. by rewrite run_completed.
Qed.

(** C8: a grant that does not carry the prefix [GM_] is never in the unused
    set and no run prints it as unused, whatever the source tree holds. *)
Theorem unprefixed_grant_never_unused w g :
  ¬ startsWith g "GM_" →
  (∀ grants calls, g ∉ unused grants calls)
  ∧ (console_warn, item g) ∉ printed (run w).
Proof.
  intros Hg.
  assert (∀ grants calls, g ∉ unused grants calls) as Hunused.
  { intros grants calls (_ & _ & Hp & _)%elem_of_unused. done. }
  split; [done|].
  destruct (printed_aborted_or_completed w) as [->|(meta & files & ->)];
    [by intros ?%elem_of_nil|].
  unfold missing_block, unused_block, success_block.
  rewrite !elem_of_app. intros [Hin|[Hin|Hin]]; revert Hin;
    case_bool_decide; try by intros ?%elem_of_nil.
  - rewrite elem_of_cons, elem_of_app, elem_of_items, list_elem_of_singleton.
    intros [[=]|[[[=] _]|[=]]].
  - rewrite elem_of_cons, elem_of_app, elem_of_items, list_elem_of_singleton.
    intros [Heq|[[_ (y & ->%item_inj & Hy)]|Heq]];
      [by unfold item in Heq| by apply Hunused in Hy|by unfold item in Heq].
  - intros [=]%list_elem_of_singleton.
Qed.

Lemma unprefixed_grant_never_unused_witness :
  (∀ grants calls, "unsafeWindow" ∉ unused grants calls)
  ∧ (console_warn, item "unsafeWindow")
    ∉ printed (run {| rootDir := "/repo";
                      meta_json :=
                        Parsed {| grant := Some ["unsafeWindow"; "GM_addStyle"] |};
                      src := Some (Dir [("index.ts", File "main();")]) |}).
Proof.
  apply unprefixed_grant_never_unused. vm_compute. tauto.
Defined.

(** C10: the test of a grant against the sentinel changes nothing: the
    unused set computed from the prefix test and the occurrence test alone
    is the unused set the checker computes, since the sentinel does not
    carry the prefix. *)
Theorem sentinel_test_redundant (grants calls : list string) :
  unused_without_sentinel grants calls = unused grants calls
  ∧ startsWith "none" "GM_" = false.
Proof.
  split; [|reflexivity]. unfold unused_without_sentinel, unused.
  apply list_filter_iff. intros g. split; [|tauto].
  intros [Hp Hc]. by pose proof (prefixed_not_sentinel g Hp).
Qed.

(** ** What the scan collects *)

(** C4, as stated, fails: there is no two-character prefix for which the
    matches are the maximal tokens made of that prefix and one or more word
    characters. With [GM] as the prefix, [GM_] is such a token and is not
    matched; with any other, [GM_a] is matched and is no such token. *)
Lemma no_two_character_prefix :
  ¬ ∃ p, String.length p = 2
         ∧ ∀ text x, x ∈ matchAll text ↔ maximal_token p text x.
Proof.
  intros (p & Hlen & Hspec). destruct (decide (p = "GM")) as [->|Hne].
  - assert (maximal_token "GM" "GM_" "GM_") as Htok.
    { exists "", "". repeat split; [|simpl; tauto..]. by exists "_". }
    apply Hspec in Htok. vm_compute in Htok. by apply elem_of_nil in Htok.
  - assert ("GM_a" ∈ matchAll "GM_a") as Hin by (vm_compute; left).
    apply Hspec in Hin as (_ & _ & _ & (w & Heq & _) & _).
    destruct p as [|a [|b [|c p]]]; try discriminate Hlen.
    rewrite !app_String in Heq. injection Heq as <- <- _. done.
Qed.

(** C4, amended: the prefix has three characters, [GM_]. For every text the
    matches are exactly the maximal tokens made of [GM_] and one or more word
    characters; a scanned file adds exactly those to the occurrence set; and
    the set after the walk holds, besides what it held before, exactly the
    gated identifiers of the source files under the directory, as bare
    strings without duplicates. *)
Theorem scan_collects_gated_tokens :
  String.length "GM_" = 3
  ∧ (∀ text x, x ∈ matchAll text ↔ maximal_token "GM_" text x)
  ∧ (∀ content calls x,
       x ∈ scanFile content calls ↔
       x ∈ calls ∨ maximal_token "GM_" content x)
  ∧ (∀ dir calls x, x ∈ scanDirectory dir calls ↔ x ∈ calls ∨ occurs dir x)
  ∧ (∀ dir, NoDup (scanDirectory dir [])).
Proof.
  split; [done|]. split; [apply matchAll_spec|].
  split; [apply elem_of_scanFile|]. split; [intros; apply elem_of_scanDirectory|].
  intros dir. apply NoDup_scanDirectory, NoDup_nil_2.
Qed.

(** ** The lines of the report *)

Lemma filter_items_nil (P : stream * string → Prop)
    `{!∀ l, Decision (P l)} s l :
  (∀ x, ¬ P (s, item x)) → filter P (items s l) = [].
Proof.
  intros HP. apply elem_of_nil_inv.
  intros [s' t] [Hl (-> & x & -> & _)%elem_of_items]%list_elem_of_filter.
  by apply HP in Hl.
Qed.

Lemma summary_lines_missing_block m :
  summary_lines (missing_block m)
  = if bool_decide (m = []) then [] else [(console_error, missing_advice)].
Proof.
  unfold summary_lines, missing_block. case_bool_decide; [done|].
  rewrite filter_cons_False by (by intros [[=]|[=]]).
  rewrite filter_app, filter_items_nil by (intros x [[=]|[=]]).
  rewrite filter_cons_True by (by right). done.
Qed.

Lemma summary_lines_unused_block u : summary_lines (unused_block u) = [].
Proof.
  unfold summary_lines, unused_block. case_bool_decide; [done|].
  rewrite filter_cons_False by (by intros [[=]|[=]]).
  rewrite filter_app, filter_items_nil by (intros x [[=]|[=]]).
  rewrite filter_cons_False by (by intros [[=]|[=]]). done.
Qed.

Lemma closing_lines_missing_block m :
  closing_lines (missing_block m)
  = if bool_decide (m = []) then [] else [(console_error, missing_advice)].
Proof.
  unfold closing_lines, missing_block. case_bool_decide; [done|].
  rewrite filter_cons_False by (by intros [[=]|[[=]|[=]]]).
  rewrite filter_app, filter_items_nil by (intros x [[=]|[[=]|[=]]]).
  rewrite filter_cons_True by (right; by left). done.
Qed.

Lemma closing_lines_unused_block u :
  closing_lines (unused_block u)
  = if bool_decide (u = []) then [] else [(console_warn, unused_advice)].
Proof.
  unfold closing_lines, unused_block. case_bool_decide; [done|].
  rewrite filter_cons_False by (by intros [[=]|[[=]|[=]]]).
  rewrite filter_app, filter_items_nil by (intros x [[=]|[[=]|[=]]]).
  rewrite filter_cons_True by (right; by right). done.
Qed.

Lemma success_block_lines m u :
  summary_lines (success_block m u) = success_block m u
  ∧ closing_lines (success_block m u) = success_block m u.
Proof. unfold success_block. by case_bool_decide. Qed.

(** C5, as stated, fails. With nothing missing and one grant unused the
    report has neither the success message nor the guidance for missing
    grants: no summary line. With one identifier missing and one grant
    unused it closes both blocks with their advice: two closing lines. *)
Lemma summary_line_not_always_one :
  let unused_only :=
    run {| rootDir := "/repo";
           meta_json := Parsed {| grant := Some ["GM_setValue"; "GM_notification"] |};
           src := Some (Dir [("index.ts", File "GM_setValue(k, v);")]) |} in
  let both :=
    run {| rootDir := "/repo";
           meta_json := Parsed {| grant := Some ["GM_notification"] |};
           src := Some (Dir [("index.ts", File "GM_setValue(k, v);")]) |} in
  unused_only
  = (Ok 0%Z, [(console_warn, unused_header);
              (console_warn, "   - GM_notification");
              (console_warn, unused_advice)])
  ∧ length (summary_lines (printed unused_only)) = 0
  ∧ both
    = (Ok 1%Z, [(console_error, missing_header);
                (console_error, "   - GM_setValue");
                (console_error, missing_advice);
                (console_warn, unused_header);
                (console_warn, "   - GM_notification");
                (console_warn, unused_advice)])
  ∧ length (closing_lines (printed both)) = 2.
Proof. by vm_compute. Qed.

(** C5, amended: a completed run prints, for the missing identifiers when
    there are any, a header, one error line per identifier and the guidance;
    then, for the unused grants when there are any, a header, one warning
    line per grant and the advice; then the success message when both sets
    are empty. So the success message or the guidance for missing grants is
    printed once, except that neither is printed when only unused grants are
    reported; counting the advice for unused grants as well, one closing
    line is printed, and two when both sets are non-empty. *)
Theorem report_lines root meta files :
  let r := run {| rootDir := root; meta_json := Parsed meta;
                  src := Some (Dir files) |} in
  let m := missing (grants_of meta) (scanDirectory (Dir files) []) in
  let u := unused (grants_of meta) (scanDirectory (Dir files) []) in
  printed r = missing_block m ++ unused_block u ++ success_block m u
  ∧ (∀ x, times (console_error, item x) (printed r)
          = if bool_decide (x ∈ m) then 1 else 0)
  ∧ (∀ x, times (console_warn, item x) (printed r)
          = if bool_decide (x ∈ u) then 1 else 0)
  ∧ times (console_log, success_message) (printed r)
    = (if bool_decide (m = [] ∧ u = []) then 1 else 0)
  ∧ length (summary_lines (printed r))
    = (if bool_decide (m = [] ∧ u ≠ []) then 0 else 1)
  ∧ length (closing_lines (printed r))
    = (if bool_decide (m ≠ [] ∧ u ≠ []) then 2 else 1).
Proof.
  intros r m u. unfold r. rewrite run_completed. unfold printed. cbn [snd].
  fold m u.
  destruct (NoDup_report_sets meta (Dir files)) as [Hm Hu]. fold m u in Hm, Hu.
  split; [done|]. split; [|split; [|split; [|split]]].
  - intros x. rewrite times_item_report by done.
    rewrite (bool_decide_ext (_ ∧ x ∈ m) (x ∈ m)) by tauto.
    rewrite (bool_decide_eq_false_2 (_ ∧ x ∈ u)) by (by intros [? _]). lia.
  - intros x. rewrite times_item_report by done.
    rewrite (bool_decide_ext (_ ∧ x ∈ u) (x ∈ u)) by tauto.
    rewrite (bool_decide_eq_false_2 (_ ∧ x ∈ m)) by (by intros [? _]). lia.
  - rewrite !times_app.
    rewrite (times_zero _ (missing_block m)), (times_zero _ (unused_block u)).
    + unfold success_block. by case_bool_decide.
    + unfold unused_block. case_bool_decide; [by intros ?%elem_of_nil|].
      rewrite elem_of_cons, elem_of_app, elem_of_items,
        list_elem_of_singleton.
      intros [[=]|[[[=] _]|[=]]].
    + unfold missing_block. case_bool_decide; [by intros ?%elem_of_nil|].
      rewrite elem_of_cons, elem_of_app, elem_of_items,
        list_elem_of_singleton.
      intros [[=]|[[[=] _]|[=]]].
  - unfold summary_lines. rewrite !filter_app, !length_app.
    fold (summary_lines (missing_block m)) (summary_lines (unused_block u))
      (summary_lines (success_block m u)).
    rewrite summary_lines_missing_block, summary_lines_unused_block,
      (proj1 (success_block_lines m u)).
    unfold success_block. rewrite !bool_decide_and, bool_decide_not.
    by destruct (bool_decide (m = [])), (bool_decide (u = [])).
  - unfold closing_lines. rewrite !filter_app, !length_app.
    fold (closing_lines (missing_block m)) (closing_lines (unused_block u))
      (closing_lines (success_block m u)).
    rewrite closing_lines_missing_block, closing_lines_unused_block,
      (proj2 (success_block_lines m u)).
    unfold success_block. rewrite !bool_decide_and, !bool_decide_not.
    by destruct (bool_decide (m = [])), (bool_decide (u = [])).
Qed.

(** ** A manifest that cannot be read *)

(** C6, as stated, fails for a manifest that is not parseable: the run
    aborts with the [SyntaxError] of [JSON.parse], which was given the text
    and not the path, and which names no file. *)
Lemma syntax_error_names_no_file :
  let w := {| rootDir := "/repo"; meta_json := Unparseable "{ grant: [";
              src := Some (Dir [("index.ts", File "main();")]) |} in
  run w = (Throw (SyntaxError "{ grant: ["), [])
  ∧ ¬ ∃ e, (run w).1 = Throw e
           ∧ exn_path e = Some (path_join (rootDir w) "meta.json").
Proof.
  split; [done|]. intros (e & [= <-] & [=]).
Qed.

(** C6, amended: if the manifest file is missing or is not parseable, the
    run aborts with exit code 1 on an uncaught exception before any line is
    printed. For a missing file the exception is the [ENOENT] of the read and
    names the path of the manifest; for an unparseable file it is the
    [SyntaxError] of the parser, determined by the text alone. *)
Theorem manifest_failure_aborts w :
  (∀ meta, meta_json w ≠ Parsed meta) →
  ∃ e, run w = (Throw e, [])
       ∧ exit_code (run w) = 1%Z
       ∧ printed (run w) = []
       ∧ (meta_json w = NoSuchFile →
          e = ENOENT "open" (path_join (rootDir w) "meta.json")
          ∧ exn_path e = Some (path_join (rootDir w) "meta.json"))
       ∧ (∀ text, meta_json w = Unparseable text → e = SyntaxError text).
Proof.
  intros Hbad. destruct w as [root [|text|meta] source].
  - exists (ENOENT "open" (path_join root "meta.json")).
    repeat split; done.
  - exists (SyntaxError text). repeat split; try done. by intros t [= ->].
  - by destruct (Hbad meta).
Qed.

Lemma manifest_failure_aborts_witness :
  let w := {| rootDir := "/repo"; meta_json := NoSuchFile;
              src := Some (Dir [("index.ts", File "GM_setValue(k, v);")]) |} in
  ∃ e, run w = (Throw e, [])
       ∧ exit_code (run w) = 1%Z
       ∧ printed (run w) = []
       ∧ (meta_json w = NoSuchFile →
          e = ENOENT "open" (path_join (rootDir w) "meta.json")
          ∧ exn_path e = Some (path_join (rootDir w) "meta.json"))
       ∧ (∀ text, meta_json w = Unparseable text → e = SyntaxError text).
Proof.
  apply manifest_failure_aborts. simpl. discriminate.
Defined.

(** ** Two runs *)

Lemma elem_of_diagnostics s t out : t ∈ diagnostics s out ↔ (s, t) ∈ out.
Proof.
  unfold diagnostics. rewrite elem_of_list_to_set, list_elem_of_fmap. split.
  - intros ([s' t'] & -> & [Hs Hin]%list_elem_of_filter). simpl in *.
    by subst.
  - intros Hin. exists (s, t). split; [done|]. by apply list_elem_of_filter.
Qed.

Lemma same_elements_nil {A} (l1 l2 : list A) :
  (∀ x, x ∈ l1 ↔ x ∈ l2) → l1 = [] ↔ l2 = [].
Proof.
  intros Hsame. split; intros ->; apply elem_of_nil_inv; intros x Hx;
    apply Hsame in Hx; by apply elem_of_nil in Hx.
Qed.

Lemma elem_of_missing_block line m :
  line ∈ missing_block m ↔
  m ≠ [] ∧ (line = (console_error, missing_header)
            ∨ line ∈ items console_error m
            ∨ line = (console_error, missing_advice)).
Proof.
  unfold missing_block. case_bool_decide.
  - rewrite elem_of_nil. tauto.
  - rewrite elem_of_cons, elem_of_app, list_elem_of_singleton. tauto.
Qed.

Lemma same_elements_items s (l1 l2 : list string) line :
  (∀ x, x ∈ l1 ↔ x ∈ l2) → line ∈ items s l1 ↔ line ∈ items s l2.
Proof.
  intros Hsame. destruct line as [s' t]. rewrite !elem_of_items.
  split; intros (-> & x & -> & Hx); (split; [done|]); exists x;
    (split; [done|]); by apply Hsame.
Qed.

Lemma same_elements_missing grants calls1 calls2 :
  (∀ x, x ∈ calls1 ↔ x ∈ calls2) →
  ∀ x, x ∈ missing grants calls1 ↔ x ∈ missing grants calls2.
Proof. intros Hsame x. by rewrite !elem_of_missing, Hsame. Qed.

Lemma same_elements_unused grants calls1 calls2 :
  (∀ x, x ∈ calls1 ↔ x ∈ calls2) →
  unused grants calls1 = unused grants calls2.
Proof.
  intros Hsame. apply list_filter_iff. intros g.
  by rewrite !Set_has_true, Hsame.
Qed.

(** C7: the checker is deterministic, and more: two runs on the same
    manifest and on source trees that differ at most in the order in which
    directories list their entries end alike, with the same exit code, and
    print the same set of lines on each stream. *)
Theorem run_deterministic w1 w2 :
  rootDir w1 = rootDir w2 → meta_json w1 = meta_json w2 →
  same_src (src w1) (src w2) →
  (run w1).1 = (run w2).1
  ∧ exit_code (run w1) = exit_code (run w2)
  ∧ ∀ s, diagnostics s (printed (run w1)) = diagnostics s (printed (run w2)).
Proof.
  destruct w1 as [root1 m1 s1], w2 as [root2 m2 s2]. simpl.
  intros -> -> Hsrc.
  assert ((run {| rootDir := root2; meta_json := m2; src := s1 |}).1
          = (run {| rootDir := root2; meta_json := m2; src := s2 |}).1
          ∧ ∀ s, diagnostics s (printed (run {| rootDir := root2;
                                               meta_json := m2; src := s1 |}))
                 = diagnostics s (printed (run {| rootDir := root2;
                                                 meta_json := m2; src := s2 |})))
    as [Hres Hdiag]; [|by unfold exit_code; rewrite Hres].
  destruct m2 as [| |meta]; [done..|].
  destruct s1 as [[c1|files1]|], s2 as [[c2|files2]|]; try done;
    try by inversion Hsrc.
  simpl in Hsrc. rewrite !run_completed. unfold printed. cbn [fst snd].
  assert (∀ x, x ∈ scanDirectory (Dir files1) [] ↔ x ∈ scanDirectory (Dir files2) [])
    as Hcalls by (intros x; by rewrite !occurs_scanned, same_tree_occurs).
  pose proof (same_elements_missing (grants_of meta) _ _ Hcalls) as Hmiss.
  rewrite (same_elements_unused (grants_of meta) _ _ Hcalls).
  pose proof (same_elements_nil _ _ Hmiss) as Hnil.
  split.
  - f_equal. apply (f_equal (λ b : bool, if b then 0%Z else 1%Z)).
    by apply bool_decide_ext.
  - intros s. apply set_eq. intros t.
    rewrite !elem_of_diagnostics, !elem_of_app, !elem_of_missing_block.
    rewrite (same_elements_items console_error _ _ _ Hmiss), Hnil.
    unfold success_block. rewrite !bool_decide_and.
    rewrite (bool_decide_ext _ _ Hnil). done.
Qed.

Lemma run_deterministic_witness :
  let manifest := Parsed {| grant := Some ["GM_setValue"; "GM_addStyle"] |} in
  let store := ("store.js", File "GM_setValue(k, GM_getValue(k));") in
  let net := ("net.ts", File "GM_xmlhttpRequest(options);") in
  let index := ("index.ts", File "GM_setValue(k, v);") in
  let w1 := {| rootDir := "/repo"; meta_json := manifest;
               src := Some (Dir [index; ("lib", Dir [store; net])]) |} in
  let w2 := {| rootDir := "/repo"; meta_json := manifest;
               src := Some (Dir [("lib", Dir [net; store]); index]) |} in
  (run w1).1 = (run w2).1
  ∧ exit_code (run w1) = exit_code (run w2)
  ∧ ∀ s, diagnostics s (printed (run w1)) = diagnostics s (printed (run w2)).
Proof.
  intros manifest store net index w1 w2.
  apply (run_deterministic w1 w2); [reflexivity..|]. simpl.
  apply same_Dir with [index; ("lib", Dir [net; store])]; [|apply perm_swap].
  repeat constructor; simpl.
  apply same_Dir with [store; net]; [|apply perm_swap].
  repeat constructor.
Defined.

(** ** References in comments and strings *)

Lemma matchAll_between pre x post :
  token_shape "GM_" x →
  ¬ isWordAt (last_char None pre) → ¬ isWordAt (first_char post) →
  x ∈ matchAll (pre +:+ x +:+ post).
Proof. intros Hx Hpre Hpost. apply matchAll_spec. by exists pre, post. Qed.

(** C9: the scan knows nothing of the syntax of the files. A gated
    identifier is recorded when it stands in a line comment or between
    quotes, and an identifier that occurs anywhere in the source is never
    reported as unused. In the template, [utils.ts] mentions [GM_addStyle]
    only in a commented-out function: with [GM_addStyle] granted the run
    reports success, and without those comment lines it would report the
    grant as unused. *)
Theorem commented_reference_counts :
  (∀ pre x post,
     token_shape "GM_" x →
     x ∈ matchAll (pre +:+ "// " +:+ x +:+ nl +:+ post))
  ∧ (∀ pre x post,
       token_shape "GM_" x →
       x ∈ matchAll (pre +:+ "'" +:+ x +:+ "'" +:+ post))
  ∧ (∀ meta files x,
       occurs (Dir files) x →
       x ∉ unused (grants_of meta) (scanDirectory (Dir files) []))
  ∧ matchAll utils_ts_head = []
  ∧ matchAll utils_ts = ["GM_addStyle"; "GM_addStyle"]
  ∧ scanDirectory (template_src utils_ts) [] = ["GM_addStyle"]
  ∧ run (template_world utils_ts) = (Ok 0%Z, [(console_log, success_message)])
  ∧ run (template_world utils_ts_head)
    = (Ok 0%Z, [(console_warn, unused_header);
                (console_warn, "   - GM_addStyle");
                (console_warn, unused_advice)]).
Proof.
  split; [|split; [|split]].
  - intros pre x post Hx. rewrite <-app_assoc_s.
    apply matchAll_between; [done|rewrite last_char_app|]; vm_compute; tauto.
  - intros pre x post Hx. rewrite <-app_assoc_s.
    apply matchAll_between; [done|rewrite last_char_app|]; vm_compute; tauto.
  - intros meta files x Hx (_ & _ & _ & Hc)%elem_of_unused.
    by apply Hc, occurs_scanned.
  - by vm_compute.
Qed.

(** ** The scenarios of the specification *)

Example matchAll_resumes_after_match :
  matchAll "GM_setValue(k, GM_getValue(k)); xGM_a GM_ GM_9 GM_setValue"
  = ["GM_setValue"; "GM_getValue"; "GM_9"; "GM_setValue"].
Proof. reflexivity. Qed.

Example scenario_missing :
  run {| rootDir := "/repo";
         meta_json := Parsed {| grant := Some ["GM_setValue"] |};
         src := Some (Dir [("index.ts",
                            File "GM_setValue(k, 1); GM_getValue(k);")]) |}
  = (Ok 1%Z, [(console_error, missing_header);
              (console_error, "   - GM_getValue");
              (console_error, missing_advice)]).
Proof. reflexivity. Qed.

Example scenario_nothing_granted_nothing_used :
  run {| rootDir := "/repo"; meta_json := Parsed {| grant := Some [] |};
         src := Some (Dir [("index.ts", File index_ts)]) |}
  = (Ok 0%Z, [(console_log, success_message)]).
Proof. reflexivity. Qed.

Example scenario_sentinel_alone :
  run {| rootDir := "/repo"; meta_json := Parsed {| grant := Some ["none"] |};
         src := Some (Dir []) |}
  = (Ok 0%Z, [(console_log, success_message)]).
Proof. reflexivity. Qed.

Example scenario_no_grant_field :
  run {| rootDir := "/repo"; meta_json := Parsed {| grant := None |};
         src := Some (Dir [("notes.md", File "GM_setValue");
                           ("a.test.ts", File "GM_setValue")]) |}
  = (Ok 1%Z, [(console_error, missing_header);
              (console_error, "   - GM_setValue");
              (console_error, missing_advice)]).
Proof. reflexivity. Qed.

Example scenario_no_source_directory :
  run {| rootDir := "/repo"; meta_json := Parsed {| grant := Some [] |};
         src := None |}
  = (Throw (ENOENT "scandir" "/repo/src"), []).
Proof. reflexivity. Qed.

(** * Further properties of the checker *)

(** ** The pattern on a text in pieces *)

Lemma wordRun_separator r c t :
  ¬ isWordChar c → wordRun (r +:+ String c t) = wordRun r.
Proof.
  intros Hc. induction r as [|a r IH].
  - rewrite app_empty_l. simpl. by destruct (isWordChar c).
  - rewrite app_String. simpl. by rewrite IH.
Qed.

Lemma literal_separator chars s c t :
  allWord chars → ¬ isWordChar c →
  literal chars (s +:+ String c t)
  = (λ rest, rest +:+ String c t) <$> literal chars s.
Proof.
  intros Hchars Hc. revert s Hchars.
  induction chars as [|a chars IH]; intros s Hchars; [done|].
  simpl in Hchars. apply andb_prop_elim in Hchars as [Ha Hchars].
  destruct s as [|b s].
  - rewrite app_empty_l. simpl. case_decide; [by subst|done].
  - rewrite app_String. simpl. case_decide; [by apply IH|done].
Qed.

Lemma matchAt_separator prev s c t :
  s ≠ "" → ¬ isWordChar c →
  matchAt prev (s +:+ String c t) = matchAt prev s.
Proof.
  intros Hs Hc. unfold matchAt.
  assert (wordBoundary prev (s +:+ String c t) = wordBoundary prev s) as ->
    by by destruct s.
  rewrite literal_separator by done.
  destruct (literal "GM_" s) as [rest|]; [|done]. simpl.
  by rewrite wordRun_separator.
Qed.

Lemma matchAt_not_at_separator prev c t :
  ¬ isWordChar c → matchAt prev (String c t) = None.
Proof.
  intros Hc. unfold matchAt. destruct (wordBoundary prev (String c t)); [|done].
  simpl. case_decide; [by subst|done].
Qed.

Lemma matchEvery_prev prev1 prev2 s :
  isWordAt prev1 = isWordAt prev2 → matchEvery prev1 s = matchEvery prev2 s.
Proof.
  intros Hprev. destruct s as [|a s]; [done|]. simpl.
  unfold matchAt, wordBoundary. by rewrite Hprev.
Qed.

Lemma matchEvery_separator s prev c t :
  ¬ isWordChar c →
  matchEvery prev (s +:+ String c t) = matchEvery prev s ++ matchEvery None t.
Proof.
  intros Hc. revert prev. induction s as [|a s IH]; intros prev.
  - rewrite app_empty_l. simpl. rewrite matchAt_not_at_separator by done.
    apply matchEvery_prev. simpl. by destruct (isWordChar c).
  - change (matchEvery prev (String a s +:+ String c t))
      with (option_list (matchAt prev (String a s +:+ String c t))
            ++ matchEvery (Some a) (s +:+ String c t)).
    rewrite matchAt_separator, IH by done. simpl. by rewrite app_assoc.
Qed.

(** X1: a character that is not a word character cuts the text in two
    for the pattern: the matches of the whole are the matches of what is
    before it followed by the matches of what is after it. A file is
    scanned as if line by line. *)
Theorem matchAll_separator s c t :
  ¬ isWordChar c → matchAll (s +:+ String c t) = matchAll s ++ matchAll t.
Proof.
  intros Hc. unfold matchAll.
  rewrite !matchAll_from_every by by left. by apply matchEvery_separator.
Qed.

Lemma matchAll_separator_witness :
  matchAll ("GM_setValue(k, v);" +:+ String "010" "// GM_addStyle(css);")
  = matchAll "GM_setValue(k, v);" ++ matchAll "// GM_addStyle(css);".
Proof. apply matchAll_separator. vm_compute. tauto. Defined.

Lemma matchAll_from_lengths s prev k :
  sum_list (String.length <$> matchAll_from prev k s) ≤ String.length s - k.
Proof.
  revert prev k. induction s as [|c s IH]; intros prev k; [simpl; lia|].
  destruct k as [|k]; [|apply IH].
  change (matchAll_from prev 0 (String c s))
    with (match matchAt prev (String c s) with
          | Some m => m :: matchAll_from (Some c) (String.length m - 1) s
          | None => matchAll_from (Some c) 0 s
          end).
  destruct (matchAt prev (String c s)) as [m|] eqn:Hm.
  - apply matchAt_Some in Hm as (post & Hs & _).
    apply (f_equal String.length) in Hs. rewrite length_app_s in Hs.
    simpl in Hs. rewrite fmap_cons. simpl.
    specialize (IH (Some c) (String.length m - 1)). lia.
  - specialize (IH (Some c) 0). simpl. lia.
Qed.

Lemma match_length text m : m ∈ matchAll text → 4 ≤ String.length m.
Proof.
  intros (_ & _ & _ & (w & -> & Hne & _) & _)%matchAll_spec.
  rewrite length_app_s. destruct w; [done|]. simpl. lia.
Qed.

Lemma sum_list_at_least (n : nat) (l : list nat) :
  (∀ x, x ∈ l → n ≤ x) → n * length l ≤ sum_list l.
Proof.
  induction l as [|y l IH]; intros Hall; simpl; [lia|].
  assert (n ≤ y) by (apply Hall; by left).
  assert (n * length l ≤ sum_list l) by (apply IH; intros x Hx; apply Hall; by right).
  lia.
Qed.

(** X2: the matches of a text do not overlap: together they are no longer
    than the text; each has at least four characters, so a text has at
    most a quarter of its length in matches. *)
Theorem matches_do_not_overlap text :
  sum_list (String.length <$> matchAll text) ≤ String.length text
  ∧ 4 * length (matchAll text) ≤ String.length text.
Proof.
  assert (sum_list (String.length <$> matchAll text) ≤ String.length text)
    as Hsum.
  { unfold matchAll. pose proof (matchAll_from_lengths text None 0). lia. }
  split; [done|].
  pose proof (sum_list_at_least 4 (String.length <$> matchAll text)) as Hfour.
  rewrite length_fmap in Hfour. etrans; [apply Hfour|done].
  intros n (m & -> & Hm)%list_elem_of_fmap. by apply match_length in Hm.
Qed.

(** ** The walk *)

Lemma Set_add_prefix s x : s `prefix_of` Set_add s x.
Proof.
  unfold Set_add. destruct (Set_has s x); [done|]. by apply prefix_app_r.
Qed.

Lemma foldl_Set_add_prefix l s : s `prefix_of` foldl Set_add s l.
Proof.
  revert s. induction l as [|x l IH]; intros s; simpl; [done|].
  etrans; [apply Set_add_prefix|apply IH].
Qed.

Lemma foldl_Set_add_noop l s :
  (∀ x, x ∈ l → x ∈ s) → foldl Set_add s l = s.
Proof.
  induction l as [|y l IH]; intros Hall; simpl; [done|].
  unfold Set_add at 2, Set_has.
  rewrite bool_decide_eq_true_2 by (apply Hall; by left).
  apply IH. intros x Hx. apply Hall. by right.
Qed.

(** X3: the walk only appends to the occurrence set: what was recorded
    stays, in its place, and identifiers are recorded in the order in which
    the walk first meets them. *)
Theorem scan_appends dir :
  ∀ calls, calls `prefix_of` scanDirectory dir calls.
Proof.
  induction dir as [content|files IH] using node_tree_ind; intros calls;
    [done|].
  revert calls. induction files as [|[file child] files IHfiles];
    intros calls; [done|].
  apply Forall_cons in IH as [IHchild IH]. simpl in IHchild.
  rewrite scanDirectory_cons. etrans; [|by apply IHfiles].
  destruct child as [content|sub]; [|by apply IHchild].
  destruct (isSourceFile file); [apply foldl_Set_add_prefix|done].
Qed.

Lemma scanDirectory_noop dir :
  ∀ calls, (∀ x, occurs dir x → x ∈ calls) → scanDirectory dir calls = calls.
Proof.
  induction dir as [content|files IH] using node_tree_ind; intros calls Hall;
    [done|].
  revert calls Hall. induction files as [|[file child] files IHfiles];
    intros calls Hall; [done|].
  apply Forall_cons in IH as [IHchild IH]. simpl in IHchild.
  rewrite scanDirectory_cons.
  assert (match child with
          | Dir _ => scanDirectory child calls
          | File content =>
              if isSourceFile file then scanFile content calls else calls
          end = calls) as ->.
  { destruct child as [content|sub].
    - destruct (isSourceFile file) eqn:Hfile; [|done].
      apply foldl_Set_add_noop. intros x Hx%matchAll_spec.
      apply Hall, occurs_cons. left. exists content. by rewrite Hfile.
    - apply IHchild. intros x Hx. apply Hall, occurs_cons. right. by left. }
  apply IHfiles; [done|]. intros x Hx. apply Hall, occurs_cons. right.
  by right.
Qed.

(** X4: scanning a tree whose gated identifiers are all recorded already
    changes nothing; in particular a second scan of the same tree, or of
    the same tree listed in another order, adds nothing. *)
Theorem rescan_adds_nothing dir dir' calls :
  same_tree dir dir' →
  scanDirectory dir' (scanDirectory dir calls) = scanDirectory dir calls.
Proof.
  intros Hsame. apply scanDirectory_noop. intros x Hx.
  apply elem_of_scanDirectory. right. by apply (same_tree_occurs dir dir').
Qed.

Lemma rescan_adds_nothing_witness :
  let a := ("a.ts", File "GM_setValue(k, v);") in
  let b := ("b.js", File "GM_getValue(k); GM_setValue(k, v);") in
  scanDirectory (Dir [b; a]) (scanDirectory (Dir [a; b]) ["GM_log"])
  = scanDirectory (Dir [a; b]) ["GM_log"].
Proof.
  intros a b. apply rescan_adds_nothing.
  apply same_Dir with [a; b]; [|apply perm_swap].
  repeat constructor.
Defined.

Lemma scanDirectory_app files1 files2 calls :
  scanDirectory (Dir (files1 ++ files2)) calls
  = scanDirectory (Dir files2) (scanDirectory (Dir files1) calls).
Proof. simpl. apply foldl_app. Qed.

(** X5: the walk of a directory is the walk of its entries one after the
    other, and a subdirectory is walked in place, whatever its name: the
    scan of a tree is the scan of the tree with the subdirectory replaced
    by its entries. *)
Theorem subdirectory_walked_in_place before d sub after calls :
  scanDirectory (Dir (before ++ (d, Dir sub) :: after)) calls
  = scanDirectory (Dir (before ++ sub ++ after)) calls.
Proof.
  rewrite !scanDirectory_app, scanDirectory_cons. done.
Qed.

(** X6: a file whose name ends neither in [.ts] nor in [.js] is not read:
    with or without it, whatever its text, the scan is the same. *)
Theorem other_files_ignored before file content after calls :
  ¬ isSourceFile file →
  scanDirectory (Dir (before ++ (file, File content) :: after)) calls
  = scanDirectory (Dir (before ++ after)) calls.
Proof.
  intros Hfile. rewrite !scanDirectory_app, scanDirectory_cons.
  by destruct (isSourceFile file).
Qed.

Lemma other_files_ignored_witness :
  scanDirectory
    (Dir ([("index.ts", File "GM_setValue(k, v);")]
          ++ ("README.md", File "GM_getValue") :: [])) []
  = scanDirectory (Dir ([("index.ts", File "GM_setValue(k, v);")] ++ [])) [].
Proof. apply other_files_ignored. vm_compute. tauto. Defined.

(** ** Which files are read *)

Lemma substring_whole s : String.substring 0 (String.length s) s = s.
Proof. induction s as [|c s IH]; simpl; [done|]. by rewrite IH. Qed.

Lemma substring_suffix stem suffix :
  String.substring (String.length stem) (String.length suffix)
    (stem +:+ suffix) = suffix.
Proof.
  induction stem as [|c stem IH]; [apply substring_whole|].
  rewrite app_String. simpl. apply IH.
Qed.

Lemma substring_tail n s :
  n ≤ String.length s →
  ∃ stem, s = stem +:+ String.substring n (String.length s - n) s.
Proof.
  revert s. induction n as [|n IH]; intros s Hn.
  - exists "". by rewrite Nat.sub_0_r, substring_whole.
  - destruct s as [|c s]; simpl in Hn; [lia|].
    destruct (IH s) as [stem Hs]; [lia|].
    exists (String c stem). rewrite app_String. simpl. by rewrite <-Hs.
Qed.

Lemma endsWith_spec file suffix :
  endsWith file suffix ↔ ∃ stem, file = stem +:+ suffix.
Proof.
  unfold endsWith. rewrite andb_True, bool_decide_spec, Is_true_true,
    String.eqb_eq.
  split.
  - intros [Hlen Hsub].
    destruct (substring_tail (String.length file - String.length suffix) file)
      as [stem Hstem]; [lia|].
    exists stem. rewrite Hstem at 1. f_equal. rewrite <-Hsub at 3.
    f_equal. lia.
  - intros [stem ->]. rewrite length_app_s. split; [lia|].
    replace (String.length stem + String.length suffix - String.length suffix)
      with (String.length stem) by lia.
    apply substring_suffix.
Qed.

(** X7: the files read are those whose name ends in [.ts] or in [.js],
    and no others; so a test file [*.test.ts] or a declaration file
    [*.d.ts] under the source directory is read like any other. *)
Theorem source_file_names file :
  (isSourceFile file ↔ ∃ stem, file = stem +:+ ".ts" ∨ file = stem +:+ ".js")
  ∧ (∀ stem, isSourceFile (stem +:+ ".test.ts")
             ∧ isSourceFile (stem +:+ ".d.ts")).
Proof.
  assert (∀ f, isSourceFile f ↔ ∃ stem, f = stem +:+ ".ts" ∨ f = stem +:+ ".js")
    as Hspec.
  { intros f. unfold isSourceFile. rewrite orb_True, !endsWith_spec.
    split; [intros [[stem ->]|[stem ->]]; eauto|].
    intros (stem & [->| ->]); eauto. }
  split; [apply Hspec|]. intros stem. split; apply Hspec.
  - exists (stem +:+ ".test"). left. by rewrite app_assoc_s.
  - exists (stem +:+ ".d"). left. by rewrite app_assoc_s.
Qed.

(** ** The run, whatever the world *)



Lemma elem_of_unused_block line u :
  line ∈ unused_block u ↔
  u ≠ [] ∧ (line = (console_warn, unused_header)
            ∨ line ∈ items console_warn u
            ∨ line = (console_warn, unused_advice)).
Proof.
  unfold unused_block. case_bool_decide.
  - rewrite elem_of_nil. tauto.
  - rewrite elem_of_cons, elem_of_app, list_elem_of_singleton. tauto.
Qed.

Lemma elem_of_success_block line m u :
  line ∈ success_block m u ↔
  m = [] ∧ u = [] ∧ line = (console_log, success_message).
Proof.
  unfold success_block. case_bool_decide.
  - rewrite list_elem_of_singleton. tauto.
  - rewrite elem_of_nil. tauto.
Qed.


Lemma elem_of_item_report s x m u :
  (s, item x) ∈ missing_block m ++ unused_block u ++ success_block m u ↔
  (s = console_error ∧ x ∈ m) ∨ (s = console_warn ∧ x ∈ u).
Proof.
  rewrite !elem_of_app, elem_of_missing_block, elem_of_unused_block,
    elem_of_success_block, !elem_of_items.
  split.
  - intros [(_ & [Heq|[(-> & y & ->%item_inj & Hy)|Heq]])
           |[(_ & [Heq|[(-> & y & ->%item_inj & Hy)|Heq]])|(_ & _ & Heq)]];
      try (symmetry in Heq; by apply header_not_item in Heq); eauto.
  - intros [[-> Hx]|[-> Hx]]; [left|right; left];
      (split; [by intros ->; apply elem_of_nil in Hx|]);
      right; left; eauto.
Qed.


(** X10: a line that reports an identifier as missing is about the prefix
    [GM_] followed by word characters, found in the source and not granted;
    a line that reports a grant as unused is about a grant with the prefix
    [GM_] that is not the sentinel; no run reports the same name both as
    missing and as unused. *)
Theorem reported_names w x :
  ((console_error, item x) ∈ printed (run w) →
     token_shape "GM_" x ∧ (console_warn, item x) ∉ printed (run w))
  ∧ ((console_warn, item x) ∈ printed (run w) →
     startsWith x "GM_" ∧ x ≠ "none").
Proof.
  destruct (printed_aborted_or_completed w) as [->|(meta & files & ->)];
    [by split; intros ?%elem_of_nil|].
  rewrite !elem_of_item_report. split.
  - intros [[_ [Hx Hg]%elem_of_missing]|[[=] _]]. split.
    + apply occurs_scanned in Hx as (_ & _ & _ & _ & (_ & _ & _ & Hx & _)).
      done.
    + intros [[[=] _]|[_ (Hg' & _)%elem_of_unused]]. done.
  - intros [[[=] _]|[_ (_ & Hne & Hp & _)%elem_of_unused]]. done.
Qed.

(** ** Following the advice of the report *)

Lemma foldl_Set_add_fresh m s :
  NoDup m → (∀ x, x ∈ m → x ∉ s) → foldl Set_add s m = s ++ m.
Proof.
  intros Hnd. revert s. induction Hnd as [|y m Hy Hnd IH]; intros s Hfresh.
  - by rewrite app_nil_r.
  - simpl. unfold Set_add at 2, Set_has.
    rewrite bool_decide_eq_false_2 by (apply Hfresh; by left).
    rewrite IH, <-app_assoc; [done|].
    intros x Hx [Hs| ->%list_elem_of_singleton]%elem_of_app; [|done].
    by apply (Hfresh x); [right|].
Qed.

Lemma filter_agree {A} (P Q : A → Prop)
    `{!∀ x, Decision (P x)} `{!∀ x, Decision (Q x)} (l : list A) :
  (∀ x, x ∈ l → P x ↔ Q x) → filter P l = filter Q l.
Proof.
  induction l as [|y l IH]; intros Hagree; [done|].
  rewrite !filter_cons, IH by (intros x Hx; apply Hagree; by right).
  assert (P y ↔ Q y) as Hy by (apply Hagree; by left).
  destruct (decide (P y)), (decide (Q y)); try done; tauto.
Qed.

Lemma filter_none {A} (P : A → Prop) `{!∀ x, Decision (P x)} (l : list A) :
  (∀ x, x ∈ l → ¬ P x) → filter P l = [].
Proof.
  intros Hnone. apply elem_of_nil_inv.
  intros x [HP Hx]%list_elem_of_filter. by apply (Hnone x).
Qed.

Lemma grants_with_missing meta calls :
  NoDup calls →
  grants_of {| grant := Some (default [] (grant meta)
                              ++ missing (grants_of meta) calls) |}
  = grants_of meta ++ missing (grants_of meta) calls.
Proof.
  intros Hnd. unfold grants_of at 1, new_Set. simpl. rewrite foldl_app.
  apply foldl_Set_add_fresh; [by apply NoDup_missing|].
  by intros x [_ Hx]%elem_of_missing.
Qed.

(** The run of a manifest under which nothing is missing and nothing is
    unused. *)
Lemma run_clean root meta files :
  missing (grants_of meta) (scanDirectory (Dir files) []) = [] →
  unused (grants_of meta) (scanDirectory (Dir files) []) = [] →
  run {| rootDir := root; meta_json := Parsed meta; src := Some (Dir files) |}
  = (Ok 0%Z, [(console_log, success_message)]).
Proof. intros Hm Hu. rewrite run_completed, Hm, Hu. done. Qed.

(** X11: the guidance printed for missing grants is sound. When the
    identifiers reported missing are added to the [grant] array, the next
    run on the same sources exits 0 with nothing missing, and warns about
    the same unused grants as before. *)
Theorem granting_the_missing root meta files :
  let calls := scanDirectory (Dir files) [] in
  let meta' := {| grant := Some (default [] (grant meta)
                                 ++ missing (grants_of meta) calls) |} in
  let r' := run {| rootDir := root; meta_json := Parsed meta';
                   src := Some (Dir files) |} in
  missing (grants_of meta') calls = []
  ∧ unused (grants_of meta') calls = unused (grants_of meta) calls
  ∧ exit_code r' = 0%Z
  ∧ printed r'
    = unused_block (unused (grants_of meta) calls)
      ++ success_block [] (unused (grants_of meta) calls).
Proof.
  intros calls meta' r'.
  assert (NoDup calls) as Hnd by apply NoDup_scanDirectory, NoDup_nil_2.
  assert (grants_of meta'
          = grants_of meta ++ missing (grants_of meta) calls) as Hgrants
    by by apply grants_with_missing.
  assert (missing (grants_of meta') calls = []) as Hm.
  { apply filter_none. intros x Hx. rewrite Set_has_true, Hgrants.
    intros Hg. apply Hg, elem_of_app.
    destruct (decide (x ∈ grants_of meta)); [by left|right].
    by apply elem_of_missing. }
  assert (unused (grants_of meta') calls = unused (grants_of meta) calls)
    as Hu.
  { rewrite Hgrants. unfold unused at 1. rewrite filter_app.
    fold (unused (grants_of meta) calls).
    rewrite (filter_none _ (missing _ _)), app_nil_r; [done|].
    intros x [Hx _]%elem_of_missing (_ & _ & Hc). by rewrite Set_has_true in Hc. }
  split; [done|]. split; [done|]. unfold r'.
  rewrite run_completed. fold calls. rewrite Hm, Hu. done.
Qed.

Lemma grants_without_unused meta calls x :
  x ∈ grants_of {| grant := Some (filter
                                    (λ g, g ∉ unused (grants_of meta) calls)
                                    (default [] (grant meta))) |}
  ↔ x ∈ grants_of meta ∧ x ∉ unused (grants_of meta) calls.
Proof.
  rewrite !elem_of_grants_of. simpl. rewrite list_elem_of_filter. tauto.
Qed.

(** X12: the advice printed for unused grants is sound. When the grants
    reported unused are removed from the [grant] array, the next run on the
    same sources reports no unused grant, reports the same identifiers
    missing as before and exits with the same code. *)
Theorem removing_the_unused root meta files :
  let calls := scanDirectory (Dir files) [] in
  let meta' := {| grant := Some (filter
                                   (λ g, g ∉ unused (grants_of meta) calls)
                                   (default [] (grant meta))) |} in
  let run_with m :=
    run {| rootDir := root; meta_json := Parsed m; src := Some (Dir files) |} in
  unused (grants_of meta') calls = []
  ∧ missing (grants_of meta') calls = missing (grants_of meta) calls
  ∧ exit_code (run_with meta') = exit_code (run_with meta)
  ∧ ∀ t, (console_warn, t) ∉ printed (run_with meta').
Proof.
  intros calls meta' run_with.
  assert (unused (grants_of meta') calls = []) as Hu.
  { apply filter_none. intros x [Hx Hnot]%grants_without_unused (Hne & Hp & Hc).
    apply Hnot, elem_of_unused. by rewrite Set_has_true in Hc. }
  assert (missing (grants_of meta') calls = missing (grants_of meta) calls)
    as Hm.
  { apply filter_agree. intros x Hx. unfold meta'.
    rewrite !Set_has_true, grants_without_unused, elem_of_unused. tauto. }
  split; [done|]. split; [done|]. unfold run_with.
  rewrite !run_completed. fold calls. rewrite Hm, Hu.
  split; [done|]. intros t. unfold printed. cbn [snd].
  rewrite !elem_of_app, elem_of_missing_block, elem_of_unused_block,
    elem_of_success_block, elem_of_items.
  intros [(_ & [[=]|[[[=] _]|[=]]])|[[? _]|(_ & _ & [=])]]. done.
Qed.

(** X13: following both pieces of advice leaves nothing to report: with
    the unused grants removed and the missing identifiers added, the next
    run on the same sources prints the success message alone and exits
    0. *)
Theorem following_all_advice root meta files :
  let calls := scanDirectory (Dir files) [] in
  let meta' := {| grant := Some (filter
                                   (λ g, g ∉ unused (grants_of meta) calls)
                                   (default [] (grant meta))
                                 ++ missing (grants_of meta) calls) |} in
  run {| rootDir := root; meta_json := Parsed meta'; src := Some (Dir files) |}
  = (Ok 0%Z, [(console_log, success_message)]).
Proof.
  intros calls meta'.
  assert (∀ x, x ∈ grants_of meta' ↔
               (x ∈ grants_of meta ∧ x ∉ unused (grants_of meta) calls)
               ∨ x ∈ missing (grants_of meta) calls) as Hgrants.
  { intros x. rewrite !elem_of_grants_of. simpl.
    rewrite elem_of_app, list_elem_of_filter. tauto. }
  apply run_clean; fold calls; apply filter_none; intros x Hx.
  - rewrite Set_has_true, Hgrants. intros Hg. apply Hg.
    destruct (decide (x ∈ grants_of meta)) as [Hin|Hin].
    + left. split; [done|]. intros (_ & _ & _ & Hc)%elem_of_unused. done.
    + right. by apply elem_of_missing.
  - rewrite Set_has_true. intros (Hne & Hp & Hc).
    apply Hgrants in Hx as [[Hin Hnot]|[Hin _]%elem_of_missing]; [|done].
    apply Hnot, elem_of_unused. done.
Qed.

(** X14: the success message is printed exactly when every gated
    identifier found in the source is granted and every grant with the
    prefix [GM_] occurs in the source; it is then the only line. *)
Theorem success_message_iff root meta files :
  let r := run {| rootDir := root; meta_json := Parsed meta;
                  src := Some (Dir files) |} in
  ((console_log, success_message) ∈ printed r ↔
     (∀ x, occurs (Dir files) x → x ∈ grants_of meta)
     ∧ (∀ g, g ∈ grants_of meta → startsWith g "GM_" → occurs (Dir files) g))
  ∧ ((console_log, success_message) ∈ printed r →
     r = (Ok 0%Z, [(console_log, success_message)])).
Proof.
  intros r.
  assert ((console_log, success_message) ∈ printed r ↔
          missing (grants_of meta) (scanDirectory (Dir files) []) = []
          ∧ unused (grants_of meta) (scanDirectory (Dir files) []) = [])
    as Hsuccess.
  { unfold r. rewrite run_completed. unfold printed. cbn [snd].
    rewrite !elem_of_app, elem_of_missing_block, elem_of_unused_block,
      elem_of_success_block, !elem_of_items.
    split; [|tauto].
    intros [(_ & [[=]|[[[=] _]|[=]]])|[(_ & [[=]|[[[=] _]|[=]]])|?]]. tauto. }
  split.
  - rewrite Hsuccess, missing_nil. apply and_iff_compat_l. split.
    + intros Hu g Hg Hp. apply occurs_scanned.
      destruct (decide (g ∈ scanDirectory (Dir files) [])) as [|Hc]; [done|].
      assert (g ∈ unused (grants_of meta) (scanDirectory (Dir files) []))
        as Hin; [|by rewrite Hu in Hin; apply elem_of_nil in Hin].
      apply elem_of_unused. repeat split; try done.
      by apply prefixed_not_sentinel.
    + intros Hall. apply filter_none.
      intros g Hg (_ & Hp & Hc). rewrite Set_has_true in Hc.
      by apply Hc, occurs_scanned, Hall.
  - intros [Hm Hu]%Hsuccess. by apply run_clean.
Qed.

(** ** The order of the report *)

Lemma foldl_Set_add_sublist l s :
  ∃ l', foldl Set_add s l = s ++ l' ∧ l' `sublist_of` l.
Proof.
  revert s. induction l as [|x l IH]; intros s; simpl.
  - exists []. by rewrite app_nil_r.
  - destruct (IH (Set_add s x)) as (l' & -> & Hsub). unfold Set_add.
    destruct (Set_has s x).
    + exists l'. split; [done|]. by apply sublist_cons.
    + exists (x :: l'). rewrite <-app_assoc. split; [done|].
      by apply sublist_skip.
Qed.

(** X15: the report keeps the order of its inputs. The unused grants are
    listed in the order of the [grant] array of the manifest, each once,
    and the missing identifiers in the order in which the walk first met
    them, each once. *)
Theorem report_order meta dir :
  let calls := scanDirectory dir [] in
  unused (grants_of meta) calls `sublist_of` default [] (grant meta)
  ∧ NoDup (unused (grants_of meta) calls)
  ∧ missing (grants_of meta) calls `sublist_of` calls
  ∧ NoDup (missing (grants_of meta) calls).
Proof.
  intros calls. destruct (NoDup_report_sets meta dir) as [Hm Hu].
  repeat split; try done; [|apply sublist_filter].
  etrans; [apply sublist_filter|]. unfold grants_of, new_Set.
  destruct (foldl_Set_add_sublist (default [] (grant meta)) [])
    as (l' & -> & Hsub). done.
Qed.

(** * The version check *)





(** X18: a file that cannot be read or parsed aborts the version check
    with exit code 1 before any line is printed. [package.json] is read
    first: when it fails, [meta.json] plays no part in the outcome, and a
    missing [package.json] is named by the exception; when it parses and
    [meta.json] is missing, the exception names [meta.json]. *)
Theorem version_sync_failure w :
  (∀ p, package_json w ≠ Json p) ∨ (∀ m, version_meta_json w ≠ Json m) →
  ∃ e, run_version_sync w = (Throw e, [])
       ∧ exit_code (run_version_sync w) = 1%Z
       ∧ ((∀ p, package_json w ≠ Json p) →
          ∀ other,
            run_version_sync {| projectDir := projectDir w;
                                package_json := package_json w;
                                version_meta_json := other |}
            = run_version_sync w)
       ∧ (package_json w = Absent →
          exn_path e = Some (path_join (projectDir w) "package.json"))
       ∧ (∀ p, package_json w = Json p → version_meta_json w = Absent →
          exn_path e = Some (path_join (projectDir w) "meta.json")).
Proof.
  destruct w as [root [|ptext|p] mf]; simpl; intros Hbad.
  - exists (ENOENT "open" (path_join root "package.json")).
    repeat split; done.
  - exists (SyntaxError ptext). repeat split; done.
  - destruct Hbad as [Hbad|Hbad]; [by destruct (Hbad p)|].
    destruct mf as [|mtext|m]; [| |by destruct (Hbad m)].
    + exists (ENOENT "open" (path_join root "meta.json")).
      repeat split; try done. intros Hp. by destruct (Hp p).
    + exists (SyntaxError mtext).
      repeat split; try done. intros Hp. by destruct (Hp p).
Qed.

Lemma version_sync_failure_witness :
  let w := {| projectDir := "/repo"; package_json := Malformed "{";
              version_meta_json := Absent |} in
  ∃ e, run_version_sync w = (Throw e, [])
       ∧ exit_code (run_version_sync w) = 1%Z
       ∧ ((∀ p, package_json w ≠ Json p) →
          ∀ other,
            run_version_sync {| projectDir := projectDir w;
                                package_json := package_json w;
                                version_meta_json := other |}
            = run_version_sync w)
       ∧ (package_json w = Absent →
          exn_path e = Some (path_join (projectDir w) "package.json"))
       ∧ (∀ p, package_json w = Json p → version_meta_json w = Absent →
          exn_path e = Some (path_join (projectDir w) "meta.json")).
Proof.
  apply version_sync_failure. left. simpl. discriminate.
Defined.

(** * The userscript *)

Lemma log_line_inj : Inj (=) (=) (λ message, "[UserScript] " +:+ message).
Proof. intros m1 m2. apply String.app_inj. Qed.

(** X19: a sequence of calls of [log] never throws and prints one line
    per message on the standard stream, in order, each the prefix
    [[UserScript] ] followed by the message, the empty message included;
    the messages can be read back from the lines. *)
Theorem log_lines messages out :
  forEach messages log out
  = (Ok tt, out ++ ((λ m, (console_log, "[UserScript] " +:+ m)) <$> messages))
  ∧ main out
    = (Ok tt, out ++ [(console_log,
                       "[UserScript] Hello from TypeScript Userscript!")])
  ∧ ∀ messages',
      (forEach messages' log out).2 = (forEach messages log out).2 →
      messages' = messages.
Proof.
  assert (∀ l o, forEach l log o
                 = (Ok tt, o ++ ((λ m, (console_log, "[UserScript] " +:+ m))
                                   <$> l))) as Hrun.
  { induction l as [|m l IH]; intros o; simpl.
    - by rewrite app_nil_r.
    - unfold log at 1. by rewrite bind_console, IH, <-app_assoc. }
  split; [apply Hrun|]. split; [done|]. intros messages'. rewrite !Hrun. simpl.
  intros Heq%app_inv_head. revert messages' Heq.
  induction messages as [|m l IH]; intros [|m' l'] Heq;
    try done. simpl in Heq.
  apply (inj2 cons) in Heq as [Hm%(f_equal snd) Hl]. simpl in Hm.
  apply log_line_inj in Hm as ->. f_equal. by apply IH.
Qed.
